(** * rest-api-typescript: certificate registry over a ledger

    A shallow embedding of the REST layer in [src/assets.router.ts] and of
    the asynchronous submission pipeline behind it (Job Store, retry policy,
    submission workers, job status projection).

    The router is embedded from its source.  The pipeline behind
    [addSubmitTransactionJob] is not part of the sources at hand; its
    definitions follow the design document and each says so. *)

From Stdlib Require Import List Bool Arith NArith ZArith Lia.
From Stdlib.Strings Require Import String Ascii Byte.
From Stdlib Require Import DecimalString.
Import ListNotations.

Set Implicit Arguments.
Set Warnings "-register-all".

(** ** Shared vocabulary *)

(** A fallible call: the value, or the error it signals. *)
Inductive Result (E A : Type) : Type :=
| Ok (a : A)
| Err (e : E).
Arguments Ok {E A} a.
Arguments Err {E A} e.

(** A Node [Buffer]. *)
Definition Buffer := list byte.

(** JSON values as the router handles them; [JUndefined] is what reading
    an absent property gives.  Numbers are carried opaquely. *)
Inductive Json : Type :=
| JUndefined
| JNull
| JBool (b : bool)
| JNum (n : Z)
| JStr (s : string)
| JArr (items : list Json)
| JObj (fields : list (string * Json)).

(** ** Job Store

    The queue behind [addSubmitTransactionJob] (module [./jobs]) is not in
    the sources; everything in this module is modelled from the design
    document's sections 3, 4.1, 4.4, 5 and 7. *)

Module JobStore.

(** Modelled from the spec: the lifecycle states of a SubmissionJob
    (section 3); the store itself is not in the sources. *)
Inductive JobState : Type := Queued | Active | Completed | Failed.

(** Modelled from the spec: the Ledger Gateway's failure tags handed to
    the worker's classifier (section 4.2). *)
Inductive ErrorKind : Type :=
| EndorsementConflict
| OrderingTimeout
| ChaincodeRejected
| ConnectivityError.

(** Modelled from the spec: the tagged variant of section 9. *)
Inductive ErrorClass : Type := Retryable | Terminal.

(** Modelled from the spec: "only the final classification and message are
    persisted" (section 7). *)
Record ErrorDetail : Type := mkErrorDetail {
  errClass : ErrorClass;
  errCode : ErrorKind;
  errMessage : string
}.

(** Modelled from the spec: the Job Store's error taxonomy (section 7). *)
Inductive StoreError : Type := StoreUnavailable | JobNotFound | InvalidTransition.

(** Modelled from the spec: SubmissionJob (section 3).  [notBefore] is the
    wall-clock instant from which a requeued job is claimable again. *)
Record SubmissionJob : Type := mkJob {
  jobId : nat;
  identity : string;
  functionName : string;
  args : list Json;
  state : JobState;
  attempts : nat;
  lastError : option ErrorDetail;
  enqueuedAt : N;
  updatedAt : N;
  notBefore : N;
  txId : option string;
  payload : option Buffer
}.

(** Modelled from the spec: the durable queue (section 4.1), jobs in
    enqueue order, with the counter that issues fresh ids and the accepted
    clock-skew margin of section 5. *)
Record Store : Type := mkStore {
  jobs : list SubmissionJob;
  nextId : nat;
  skewMargin : N
}.

Definition empty (margin : N) : Store := mkStore [] 0 margin.

Definition ErrorDetail_eq_dec (x y : ErrorDetail) : {x = y} + {x <> y}.
Proof.
  decide equality; [apply string_dec | decide equality | decide equality].
Defined.

Definition Buffer_eq_dec : forall x y : Buffer, {x = y} + {x <> y} :=
  list_eq_dec Byte.byte_eq_dec.

Definition is_terminal (st : JobState) : bool :=
  match st with
  | Completed | Failed => true
  | Queued | Active => false
  end.

Definition JobState_eqb (a b : JobState) : bool :=
  match a, b with
  | Queued, Queued | Active, Active | Completed, Completed | Failed, Failed => true
  | _, _ => false
  end.

Fixpoint find_job (id : nat) (l : list SubmissionJob) : option SubmissionJob :=
  match l with
  | [] => None
  | j :: r => if Nat.eqb (jobId j) id then Some j else find_job id r
  end.

(** Apply a per-job transition to the job called [id]. *)
Fixpoint with_job (id : nat) (f : SubmissionJob -> Result StoreError SubmissionJob)
    (l : list SubmissionJob) : Result StoreError (list SubmissionJob) :=
  match l with
  | [] => Err JobNotFound
  | j :: r =>
      if Nat.eqb (jobId j) id then
        match f j with
        | Ok j' => Ok (j' :: r)
        | Err e => Err e
        end
      else
        match with_job id f r with
        | Ok r' => Ok (j :: r')
        | Err e => Err e
        end
  end.

Definition set_jobs (s : Store) (l : list SubmissionJob) : Store :=
  mkStore l (nextId s) (skewMargin s).

(** Modelled from the spec: [enqueue(identity, function, args) -> jobId]
    "always succeeds unless the backing store is unreachable", "assigns a
    fresh unique id and initial state queued".  [up] says whether the
    backing store can be reached, [now] is the wall clock. *)
Definition enqueue (up : bool) (now : N) (idn fn : string) (xs : list Json)
    (s : Store) : Result StoreError (nat * Store) :=
  if up then
    let j := mkJob (nextId s) idn fn xs Queued 0 None now now now None None in
    Ok (nextId s, mkStore (jobs s ++ [j]) (S (nextId s)) (skewMargin s))
  else Err StoreUnavailable.

(** Modelled from the spec: a job can be claimed when it is [queued] and
    its delay has elapsed, by "wall-clock comparison, tolerant of clock
    skew up to an accepted margin" (section 5). *)
Definition eligible (margin now : N) (j : SubmissionJob) : bool :=
  match state j with
  | Queued => N.leb (notBefore j) (now + margin)
  | _ => false
  end.

(** Modelled from the spec: the record after [queued -> active]. *)
Definition activate (now : N) (j : SubmissionJob) : SubmissionJob :=
  mkJob (jobId j) (identity j) (functionName j) (args j) Active (attempts j)
        (lastError j) (enqueuedAt j) now (notBefore j) (txId j) (payload j).

(** Modelled from the spec: the record after each of the other
    transitions; "every transition updates last-updated timestamp". *)
Definition completed (now : N) (tx : string) (pl : Buffer) (j : SubmissionJob)
    : SubmissionJob :=
  mkJob (jobId j) (identity j) (functionName j) (args j) Completed (attempts j)
        (lastError j) (enqueuedAt j) now (notBefore j) (Some tx) (Some pl).

Definition failed (now : N) (d : ErrorDetail) (j : SubmissionJob) : SubmissionJob :=
  mkJob (jobId j) (identity j) (functionName j) (args j) Failed (attempts j)
        (Some d) (enqueuedAt j) now (notBefore j) (txId j) (payload j).

Definition requeued (now delay : N) (j : SubmissionJob) : SubmissionJob :=
  mkJob (jobId j) (identity j) (functionName j) (args j) Queued (S (attempts j))
        (lastError j) (enqueuedAt j) now (now + delay) (txId j) (payload j).

Fixpoint claim_first (margin now : N) (l : list SubmissionJob)
    : option (SubmissionJob * list SubmissionJob) :=
  match l with
  | [] => None
  | j :: r =>
      if eligible margin now j then Some (activate now j, activate now j :: r)
      else
        match claim_first margin now r with
        | Some (c, r') => Some (c, j :: r')
        | None => None
        end
  end.

(** Modelled from the spec: [claimNext() -> SubmissionJob | none], one
    step that moves the oldest claimable [queued] job to [active] and
    returns it. *)
Definition claimNext (now : N) (s : Store) : option SubmissionJob * Store :=
  match claim_first (skewMargin s) now (jobs s) with
  | Some (c, l) => (Some c, set_jobs s l)
  | None => (None, s)
  end.

Definition same_result (tx : string) (pl : Buffer) (j : SubmissionJob) : bool :=
  match txId j, payload j with
  | Some tx', Some pl' =>
      (if string_dec tx' tx then true else false)
      && (if Buffer_eq_dec pl' pl then true else false)
  | _, _ => false
  end.

(** Modelled from the spec: [completeWithResult(jobId, txId, payload)]
    "transitions active -> completed; idempotent if called twice with the
    same result (second call is a no-op, not an error)"; any other state
    violates the monotonic invariant and signals [InvalidTransition]. *)
Definition complete_result (now : N) (tx : string) (pl : Buffer)
    (j : SubmissionJob) : Result StoreError SubmissionJob :=
  match state j with
  | Active => Ok (completed now tx pl j)
  | Completed => if same_result tx pl j then Ok j else Err InvalidTransition
  | Queued | Failed => Err InvalidTransition
  end.

Definition completeWithResult (now : N) (id : nat) (tx : string) (pl : Buffer)
    (s : Store) : Result StoreError Store :=
  match with_job id (complete_result now tx pl) (jobs s) with
  | Ok l => Ok (set_jobs s l)
  | Err e => Err e
  end.

(** Modelled from the spec: [completeWithError(jobId, errorDetail)]
    "transitions active -> failed", idempotent like [completeWithResult]
    (section 8). *)
Definition complete_error (now : N) (d : ErrorDetail)
    (j : SubmissionJob) : Result StoreError SubmissionJob :=
  match state j with
  | Active => Ok (failed now d j)
  | Failed =>
      match lastError j with
      | Some d' => if ErrorDetail_eq_dec d' d then Ok j else Err InvalidTransition
      | None => Err InvalidTransition
      end
  | Queued | Completed => Err InvalidTransition
  end.

Definition completeWithError (now : N) (id : nat) (d : ErrorDetail)
    (s : Store) : Result StoreError Store :=
  match with_job id (complete_error now d) (jobs s) with
  | Ok l => Ok (set_jobs s l)
  | Err e => Err e
  end.

(** Modelled from the spec: [requeueWithBackoff(jobId, delay)]
    "transitions active -> queued but job is not eligible for claimNext
    until the delay elapses; increments attempt count". *)
Definition requeue (now delay : N) (j : SubmissionJob)
    : Result StoreError SubmissionJob :=
  match state j with
  | Active => Ok (requeued now delay j)
  | Queued | Completed | Failed => Err InvalidTransition
  end.

Definition requeueWithBackoff (now : N) (id : nat) (delay : N)
    (s : Store) : Result StoreError Store :=
  match with_job id (requeue now delay) (jobs s) with
  | Ok l => Ok (set_jobs s l)
  | Err e => Err e
  end.

(** Modelled from the spec: [get(jobId) -> SubmissionJob | NotFound]. *)
Definition get (id : nat) (s : Store) : Result StoreError SubmissionJob :=
  match find_job id (jobs s) with
  | Some j => Ok j
  | None => Err JobNotFound
  end.

(** Modelled from the spec: the Job Status API (section 4.4),
    [status(jobId) -> {state, attempts, result|error}], a read-only
    projection of the job record. *)
Record JobStatus : Type := mkStatus {
  stState : JobState;
  stAttempts : nat;
  stResult : option (string * Buffer);
  stError : option ErrorDetail
}.

Definition project (j : SubmissionJob) : JobStatus :=
  mkStatus (state j) (attempts j)
    (match txId j, payload j with
     | Some tx, Some pl => Some (tx, pl)
     | _, _ => None
     end)
    (lastError j).

Definition status (id : nat) (s : Store) : Result StoreError JobStatus :=
  match get id s with
  | Ok j => Ok (project j)
  | Err e => Err e
  end.

(** The operations of section 4.1 as data, so that a history of calls can
    be replayed. *)
Inductive Op : Type :=
| OpEnqueue (up : bool) (now : N) (idn fn : string) (xs : list Json)
| OpClaimNext (now : N)
| OpCompleteWithResult (now : N) (id : nat) (tx : string) (pl : Buffer)
| OpCompleteWithError (now : N) (id : nat) (d : ErrorDetail)
| OpRequeueWithBackoff (now : N) (id : nat) (delay : N)
| OpGet (id : nat).

Definition or_unchanged (s : Store) (r : Result StoreError Store) : Store :=
  match r with
  | Ok s' => s'
  | Err _ => s
  end.

(** The store after one call; a call that signals an error leaves it as
    it was. *)
Definition apply_op (op : Op) (s : Store) : Store :=
  match op with
  | OpEnqueue up now idn fn xs =>
      match enqueue up now idn fn xs s with
      | Ok (_, s') => s'
      | Err _ => s
      end
  | OpClaimNext now => snd (claimNext now s)
  | OpCompleteWithResult now id tx pl => or_unchanged s (completeWithResult now id tx pl s)
  | OpCompleteWithError now id d => or_unchanged s (completeWithError now id d s)
  | OpRequeueWithBackoff now id delay => or_unchanged s (requeueWithBackoff now id delay s)
  | OpGet _ => s
  end.


Definition stateOf (id : nat) (s : Store) : option JobState :=
  option_map state (find_job id (jobs s)).

Definition attemptsOf (id : nat) (s : Store) : option nat :=
  option_map attempts (find_job id (jobs s)).

Definition changed (before : option JobState) (after : option JobState) : list JobState :=
  match after with
  | None => []
  | Some a =>
      match before with
      | Some b => if JobState_eqb b a then [] else [a]
      | None => [a]
      end
  end.

(** The lifecycle states job [id] passes through while [ops] are applied
    to [s], one entry per change of state. *)
Fixpoint lifecycle (id : nat) (s : Store) (ops : list Op) : list JobState :=
  match ops with
  | [] => []
  | op :: rest =>
      changed (stateOf id s) (stateOf id (apply_op op s))
        ++ lifecycle id (apply_op op s) rest
  end.

(** The words of [queued -> active -> (queued -> active)* -> {completed|failed}]. *)
Definition lifecycle_word (w : list JobState) : Prop :=
  exists n t, is_terminal t = true
    /\ w = [Queued; Active] ++ List.concat (repeat [Queued; Active] n) ++ [t].

Definition lifecycle_prefix (l : list JobState) : Prop :=
  exists rest, lifecycle_word (l ++ rest).

(** One permitted move of the lifecycle, from the state before (none when
    the job does not exist yet). *)
Definition step_ok (cur : option JobState) (next : JobState) : bool :=
  match cur, next with
  | None, Queued => true
  | Some Queued, Active => true
  | Some Active, (Queued | Completed | Failed) => true
  | _, _ => false
  end.

Fixpoint chain (cur : option JobState) (l : list JobState) : bool :=
  match l with
  | [] => true
  | x :: r => step_ok cur x && chain (Some x) r
  end.

(** The four transitions a job record can make. *)
Inductive job_step : SubmissionJob -> SubmissionJob -> Prop :=
| step_claim now j : state j = Queued -> job_step j (activate now j)
| step_complete now tx pl j : state j = Active -> job_step j (completed now tx pl j)
| step_fail now d j : state j = Active -> job_step j (failed now d j)
| step_requeue now delay j : state j = Active -> job_step j (requeued now delay j).

(** What one call does to the list of jobs: nothing, one job appended,
    or one job making a transition in place. *)
Inductive jobs_step (s : Store) : list SubmissionJob -> nat -> Prop :=
| jobs_same : jobs_step s (jobs s) (nextId s)
| jobs_new now idn fn xs :
    jobs_step s
      (jobs s ++ [mkJob (nextId s) idn fn xs Queued 0 None now now now None None])
      (S (nextId s))
| jobs_moved l1 j j' l2 :
    jobs s = l1 ++ j :: l2 -> job_step j j' ->
    jobs_step s (l1 ++ j' :: l2) (nextId s).

(** Ids are issued once and below the counter. *)
Definition wf (s : Store) : Prop :=
  NoDup (map jobId (jobs s)) /\ Forall (fun j => jobId j < nextId s) (jobs s).

End JobStore.

(** ** Retry policy

    Not in the sources either; modelled from sections 3 and 4.3. *)

Module Retry.
Import JobStore.

(** Modelled from the spec: RetryPolicy (section 3): "maximum attempts,
    base delay, backoff multiplier, jitter bound, and a set of error
    categories classified as retryable", with the cap the delay is clamped
    to, and the retry ceiling of ConnectivityError, which is "retryable,
    with a lower retry ceiling than conflicts" (section 4.2).  Delays are
    whole milliseconds. *)
Record RetryPolicy : Type := mkPolicy {
  maximumAttempts : nat;
  connectivityAttempts : nat;
  baseDelay : N;
  multiplier : N;
  delayCap : N;
  jitterBound : N;
  retryable : ErrorKind -> bool
}.

(** Modelled from the spec: "delay = base * multiplier^attempt clamped to
    a cap" (section 4.3), before jitter. *)
Definition backoffDelay (p : RetryPolicy) (attempt : nat) : N :=
  N.min (baseDelay p * multiplier p ^ N.of_nat attempt) (delayCap p).

(** Modelled from the spec: the delay, before jitter, of the retry that
    follows a failure at attempt count [attempts]: the delay of the attempt
    being scheduled.  After the first failure the job is "requeued with
    attempts=1 and eligible only after delay ~ base*multiplier"
    (section 8). *)
Definition retryDelay (p : RetryPolicy) (attempts : nat) : N :=
  backoffDelay p (S attempts).

(** Modelled from the spec: how many times a failure of kind [k] is
    retried: the policy's maximum, and for ConnectivityError a ceiling
    below it (section 4.2). *)
Definition ceiling (p : RetryPolicy) (k : ErrorKind) : nat :=
  match k with
  | ConnectivityError =>
      Nat.min (connectivityAttempts p) (Nat.pred (maximumAttempts p))
  | EndorsementConflict | OrderingTimeout | ChaincodeRejected => maximumAttempts p
  end.

(** Modelled from the spec: the jitter added to a delay, drawn from
    [rnd] and never above the policy's jitter bound. *)
Definition jitter (p : RetryPolicy) (rnd : N) : N :=
  rnd mod (jitterBound p + 1).

(** Modelled from the spec: "explicit error classification returning a
    tagged variant" (section 9). *)
Definition classify (p : RetryPolicy) (k : ErrorKind) : ErrorClass :=
  if retryable p k then Retryable else Terminal.

(** Modelled from the spec: the classification of section 4.2. *)
Definition ledgerRetryable (k : ErrorKind) : bool :=
  match k with
  | EndorsementConflict | OrderingTimeout | ConnectivityError => true
  | ChaincodeRejected => false
  end.

End Retry.

(** ** Submission workers *)

Module Worker.
Import JobStore Retry.

(** Modelled from the spec: what the Ledger Gateway's [submit] reports
    back to the worker (section 4.2); the gateway is not in the sources. *)
Inductive SubmitOutcome : Type :=
| SubmitOk (tx : string) (pl : Buffer)
| SubmitErr (k : ErrorKind) (message : string).

(** Modelled from the spec: the worker's resolution of a claimed job
    (section 4.3): "on success call completeWithResult; on a retryable
    failure, if attempt count is below the RetryPolicy maximum, compute
    delay ..., add jitter, and call requeueWithBackoff; if attempts
    exhausted or failure is terminal, call completeWithError with the
    classified error".  The maximum that counts is the retry ceiling of
    the failure's kind (section 4.2). *)
Definition resolve (p : RetryPolicy) (now rnd : N) (id : nat)
    (o : SubmitOutcome) (s : Store) : Result StoreError Store :=
  match o with
  | SubmitOk tx pl => completeWithResult now id tx pl s
  | SubmitErr k msg =>
      match classify p k with
      | Terminal => completeWithError now id (mkErrorDetail Terminal k msg) s
      | Retryable =>
          match get id s with
          | Err e => Err e
          | Ok j =>
              if Nat.ltb (attempts j) (ceiling p k) then
                requeueWithBackoff now id
                  (retryDelay p (attempts j) + jitter p rnd) s
              else completeWithError now id (mkErrorDetail Retryable k msg) s
          end
      end
  end.

(** The record [resolve] leaves for a job it finds [active]. *)
Definition resolved (p : RetryPolicy) (now rnd : N) (o : SubmitOutcome)
    (j : SubmissionJob) : SubmissionJob :=
  match o with
  | SubmitOk tx pl => completed now tx pl j
  | SubmitErr k msg =>
      match classify p k with
      | Terminal => failed now (mkErrorDetail Terminal k msg) j
      | Retryable =>
          if Nat.ltb (attempts j) (ceiling p k) then
            requeued now (retryDelay p (attempts j) + jitter p rnd) j
          else failed now (mkErrorDetail Retryable k msg) j
      end
  end.

(** Modelled from the spec: the pool of section 4.3: the store, and
    which worker holds a claim on which job. *)
Record Sys : Type := mkSys {
  store : Store;
  claims : list (nat * nat)
}.

Definition init (margin : N) : Sys := mkSys (JobStore.empty margin) [].

Fixpoint held_by (w : nat) (cs : list (nat * nat)) : option nat :=
  match cs with
  | [] => None
  | (w', id) :: r => if Nat.eqb w' w then Some id else held_by w r
  end.

Definition release (w : nat) (cs : list (nat * nat)) : list (nat * nat) :=
  filter (fun c => negb (Nat.eqb (fst c) w)) cs.

(** What can happen next: a producer enqueues, an idle worker polls the
    store, a worker's [submit] returns, a client polls a status. *)
Inductive Action : Type :=
| AEnqueue (up : bool) (now : N) (idn fn : string) (xs : list Json)
| AClaim (w : nat) (now : N)
| AResolve (w : nat) (now rnd : N) (o : SubmitOutcome)
| AStatus (id : nat).

(** Modelled from the spec: one step of the pool (sections 4.3 and 5).
    Workers are interleaved and every Job Store call is one step, [claimNext]
    being "a single atomic operation".  An action that is not enabled
    changes nothing. *)
Definition sys_step (p : RetryPolicy) (a : Action) (sys : Sys) : Sys :=
  match a with
  | AEnqueue up now idn fn xs =>
      mkSys (apply_op (OpEnqueue up now idn fn xs) (store sys)) (claims sys)
  | AClaim w now =>
      match held_by w (claims sys) with
      | Some _ => sys
      | None =>
          match claimNext now (store sys) with
          | (Some j, s') => mkSys s' ((w, jobId j) :: claims sys)
          | (None, _) => sys
          end
      end
  | AResolve w now rnd o =>
      match held_by w (claims sys) with
      | None => sys
      | Some id =>
          mkSys (or_unchanged (store sys) (resolve p now rnd id o (store sys)))
                (release w (claims sys))
      end
  | AStatus _ => sys
  end.

Definition run (p : RetryPolicy) (acts : list Action) (sys : Sys) : Sys :=
  fold_left (fun acc a => sys_step p a acc) acts sys.

Definition reachable (p : RetryPolicy) (margin : N) (sys : Sys) : Prop :=
  exists acts, sys = run p acts (init margin).

(** What holds of every reachable pool. *)
Record Inv (p : RetryPolicy) (sys : Sys) : Prop := mkInv {
  inv_wf : wf (store sys);
  inv_attempts : Forall (fun j => attempts j <= maximumAttempts p) (jobs (store sys));
  inv_error : Forall (fun j => lastError j <> None -> state j = Failed) (jobs (store sys));
  inv_workers : NoDup (map fst (claims sys));
  inv_exclusive : NoDup (map snd (claims sys));
  inv_active : Forall (fun c => stateOf (snd c) (store sys) = Some Active) (claims sys)
}.

(** Sample values the statements below are exercised on. *)
Definition samplePolicy : RetryPolicy :=
  mkPolicy 3 1 100 2 1000 50 ledgerRetryable.

Definition flatPolicy : RetryPolicy :=
  mkPolicy 3 1 100 0 1000 50 ledgerRetryable.

Definition sampleArgs : list Json := [JStr "abc123"; JStr "2024-01-01"; JNum 7].

Definition sampleActive : Store :=
  snd (claimNext 5 (apply_op (OpEnqueue true 1 "Org1MSP" "IssueCertificate" sampleArgs)
                             (JobStore.empty 0))).

Definition sampleEnqueue : Action :=
  AEnqueue true 1 "Org1MSP" "IssueCertificate" sampleArgs.


Definition conflict (w : nat) (now : N) : Action :=
  AResolve w now 0 (SubmitErr EndorsementConflict "MVCC read conflict").

(** A job that has been requeued three times and is claimed again. *)
Definition sampleLastTry : Sys :=
  run samplePolicy
    [sampleEnqueue; AClaim 7 5; conflict 7 10; AClaim 7 2000; conflict 7 2010;
     AClaim 8 4000; conflict 8 4010; AClaim 7 9000] (init 0).





(** The job of [sampleActive], as the store holds it. *)
Definition sampleJob : SubmissionJob :=
  mkJob 0 "Org1MSP" "IssueCertificate" sampleArgs Active 0 None 1 5 1 None None.

(** A history: enqueue, claim, requeue, an early claim that finds nothing,
    a claim in time, completion, and three calls on the completed job. *)
Definition sampleHistory : list Op :=
  [OpEnqueue true 1 "Org1MSP" "IssueCertificate" sampleArgs;
   OpClaimNext 2;
   OpRequeueWithBackoff 3 0 10;
   OpClaimNext 4;
   OpClaimNext 20;
   OpCompleteWithResult 21 0 "tx-1" [];
   OpRequeueWithBackoff 22 0 1;
   OpCompleteWithError 23 0 (mkErrorDetail Terminal ChaincodeRejected "late");
   OpCompleteWithResult 30 0 "tx-1" []].

Definition rejected : ErrorDetail :=
  mkErrorDetail Terminal ChaincodeRejected "certificate abc123 already exists".

End Worker.

(** ** The assets router ([src/assets.router.ts]) *)

Module Router.
Import JobStore.
Local Open Scope string_scope.

(** What a call can throw.  [AssetNotFoundError] is the class imported
    from [./errors]; everything else is some other [Error]. *)
Inductive Exn : Type :=
| AssetNotFoundError (message : string)
| Error (name message : string).

Definition instanceof_AssetNotFoundError (e : Exn) : bool :=
  match e with
  | AssetNotFoundError _ => true
  | Error _ _ => false
  end.

(** A [fabric-network] contract handle. *)
Record Contract : Type := mkContract { contractOrg : string }.

(** The parts of an express [Request] the handlers read: [req.user],
    [req.body], [req.params.certificateHash] and, per MSP id, the
    [assetContract] kept in [req.app.locals]. *)
Record Request : Type := mkRequest {
  user : string;
  body : Json;
  certificateHash : string;
  locals : list (string * Contract)
}.

Record Response : Type := mkResponse {
  statusCode : nat;
  headers : list (string * string);
  jsonBody : Json
}.

(** [StatusCodes] and [getReasonPhrase] of [http-status-codes]. *)
Definition OK : nat := 200.
Definition ACCEPTED : nat := 202.
Definition BAD_REQUEST : nat := 400.
Definition NOT_FOUND : nat := 404.
Definition INTERNAL_SERVER_ERROR : nat := 500.

Definition getReasonPhrase (code : nat) : string :=
  if Nat.eqb code 200 then "OK"
  else if Nat.eqb code 202 then "Accepted"
  else if Nat.eqb code 400 then "Bad Request"
  else if Nat.eqb code 404 then "Not Found"
  else if Nat.eqb code 500 then "Internal Server Error"
  else "".

Inductive LogLevel : Type := Debug | ErrorLevel.

(** The calls a handler makes outside the router, each with the type of
    what it gives back.  A call that can throw gives a [Result]. *)
Inductive Event : Type -> Type :=
| EvatuateTransaction (contract : option Contract) (name : string) (xs : list string)
    : Event (Result Exn Buffer)
| AddSubmitTransactionJob (mspId name : string) (xs : list Json)
    : Event (Result Exn string)
| JSONparse (text : string) : Event (Result Exn Json)
| DateNow : Event string
| Log (level : LogLevel) (msg : string) : Event unit.

(** Handler code: a value, a thrown exception, or a call and what is done
    with its answer. *)
Inductive Prog (A : Type) : Type :=
| Ret (a : A)
| Throw (e : Exn)
| Vis (X : Type) (ev : Event X) (k : X -> Prog A).
Arguments Ret {A} a.
Arguments Throw {A} e.
Arguments Vis {A X} ev k.

Fixpoint bind {A B : Type} (p : Prog A) (f : A -> Prog B) : Prog B :=
  match p with
  | Ret a => f a
  | Throw e => Throw e
  | Vis ev k => Vis ev (fun x => bind (k x) f)
  end.

(** [try { p } catch (err) { h err }]. *)
Fixpoint try_catch {A : Type} (p : Prog A) (h : Exn -> Prog A) : Prog A :=
  match p with
  | Ret a => Ret a
  | Throw e => h e
  | Vis ev k => Vis ev (fun x => try_catch (k x) h)
  end.

Definition call {X : Type} (ev : Event X) : Prog X := Vis ev (fun x => Ret x).

(** [await f(...)] for an [f] that can throw. *)
Definition await {X : Type} (ev : Event (Result Exn X)) : Prog X :=
  Vis ev (fun r => match r with Ok x => Ret x | Err e => Throw e end).

Notation "x <- p ;; q" := (bind p (fun x => q))
  (at level 61, p at next level, right associativity).
Notation "p ;; q" := (bind p (fun _ => q))
  (at level 61, right associativity).

(** [obj.name]: [undefined] when there is no such property. *)
Fixpoint lookup (name : string) (fs : list (string * Json)) : Json :=
  match fs with
  | [] => JUndefined
  | (k, v) :: r => if String.eqb k name then v else lookup name r
  end.

Definition prop (name : string) (v : Json) : Json :=
  match v with
  | JObj fs => lookup name fs
  | _ => JUndefined
  end.

Fixpoint assetContract (mspId : string) (ls : list (string * Contract)) : option Contract :=
  match ls with
  | [] => None
  | (k, c) :: r => if String.eqb k mspId then Some c else assetContract mspId r
  end.

(** [express-validator]'s checks are the library's, not the router's:
    they are taken as given. *)
Record Validators : Type := mkValidators {
  isObject : Json -> bool;
  notEmpty : Json -> bool;
  isNumeric : Json -> bool
}.

Inductive Check : Type := IsObject | NotEmpty | IsNumeric.

(** One [body(field, message).check1().check2()] chain; no field selects
    the whole body. *)
Record Chain : Type := mkChain {
  chField : option string;
  chMessage : string;
  chChecks : list Check
}.

(** The chains declared on [assetsRouter.post('/')], in order. *)
Definition certificateChains : list Chain :=
  [ mkChain None "body must contain a certificate object" [IsObject];
    mkChain (Some "CertificateHash") "must be a string" [NotEmpty];
    mkChain (Some "CertificateDate") "must be a string" [NotEmpty];
    mkChain (Some "StudentId") "must be a number" [IsNumeric; NotEmpty];
    mkChain (Some "StudentName") "must be a string" [NotEmpty];
    mkChain (Some "StudentCPF") "must be a string" [NotEmpty];
    mkChain (Some "CourseName") "must be a string" [NotEmpty];
    mkChain (Some "CourseHours") "must be a number" [IsNumeric; NotEmpty];
    mkChain (Some "CourseCompletionDate") "must be a string" [NotEmpty];
    mkChain (Some "InstitutionName") "must be a string" [NotEmpty] ].

Record ValidationError : Type := mkValidationError {
  veValue : Json;
  veMsg : string;
  veParam : string
}.

Definition passes (V : Validators) (c : Check) (v : Json) : bool :=
  match c with
  | IsObject => isObject V v
  | NotEmpty => notEmpty V v
  | IsNumeric => isNumeric V v
  end.

Definition selected (c : Chain) (b : Json) : Json :=
  match chField c with
  | None => b
  | Some f => prop f b
  end.

Definition runChain (V : Validators) (b : Json) (c : Chain) : list ValidationError :=
  map (fun _ => mkValidationError (selected c b) (chMessage c)
                  (match chField c with Some f => f | None => "" end))
      (filter (fun k => negb (passes V k (selected c b))) (chChecks c)).

(** [validationResult(req)] after the chains have run. *)
Definition validationResult (V : Validators) (req : Request) : list ValidationError :=
  flat_map (runChain V (body req)) certificateChains.

Definition isEmpty (errors : list ValidationError) : bool :=
  match errors with
  | [] => true
  | _ :: _ => false
  end.

Definition errors_array (errors : list ValidationError) : Json :=
  JArr (map (fun e => JObj [("value", veValue e); ("msg", JStr (veMsg e));
                            ("param", JStr (veParam e)); ("location", JStr "body")])
            errors).

(** [res.status(code).json(value)]. *)
Definition json (code : nat) (v : Json) : Response := mkResponse code [] v.

(** The body every error answer carries. *)
Definition plain (code : nat) (ts : string) : Response :=
  json code (JObj [("status", JStr (getReasonPhrase code)); ("timestamp", JStr ts)]).

Definition toISOString : Prog string := call DateNow.

Definition evatuateTransaction (contract : option Contract) (name : string)
    (xs : list string) : Prog Buffer :=
  await (EvatuateTransaction contract name xs).

Definition addSubmitTransactionJob (mspId name : string) (xs : list Json)
    : Prog string :=
  await (AddSubmitTransactionJob mspId name xs).

Definition JSON_parse (text : string) : Prog Json := await (JSONparse text).

(** [data.toString()]. *)
Definition toString (data : Buffer) : string := string_of_list_byte data.

(** [assetsRouter.get('/')]. *)
Definition get_all (req : Request) : Prog Response :=
  call (Log Debug "Get all assets request received") ;;
  try_catch
    (let mspId := user req in
     let contract := assetContract mspId (locals req) in
     data <- evatuateTransaction contract "GetAllCertificates" [] ;;
     assets <- (if Nat.ltb 0 (List.length data)
                then JSON_parse (toString data)
                else Ret (JArr [])) ;;
     Ret (json OK assets))
    (fun err =>
       call (Log ErrorLevel "Error processing get all assets request") ;;
       ts <- toISOString ;;
       Ret (plain INTERNAL_SERVER_ERROR ts)).

(** [assetsRouter.post('/')], the handler behind the validation chains. *)
Definition post (V : Validators) (req : Request) : Prog Response :=
  call (Log Debug "Create asset request received") ;;
  let errors := validationResult V req in
  if negb (isEmpty errors) then
    ts <- toISOString ;;
    Ret (json BAD_REQUEST
           (JObj [("status", JStr (getReasonPhrase BAD_REQUEST));
                  ("reason", JStr "VALIDATION_ERROR");
                  ("message", JStr "Invalid request body");
                  ("timestamp", JStr ts);
                  ("errors", errors_array errors)]))
  else
    let mspId := user req in
    let hash := prop "CertificateHash" (body req) in
    try_catch
      (jobId <- addSubmitTransactionJob mspId "IssueCertificate"
                  [hash;
                   prop "CertificateDate" (body req);
                   prop "StudentId" (body req);
                   prop "StudentName" (body req);
                   prop "StudentCPF" (body req);
                   prop "CourseName" (body req);
                   prop "CourseHours" (body req);
                   prop "CourseCompletionDate" (body req);
                   prop "InstitutionName" (body req)] ;;
       ts <- toISOString ;;
       Ret (json ACCEPTED
              (JObj [("status", JStr (getReasonPhrase ACCEPTED));
                     ("jobId", JStr jobId);
                     ("timestamp", JStr ts)])))
      (fun err =>
         call (Log ErrorLevel "Error processing create certificate request") ;;
         ts <- toISOString ;;
         Ret (plain INTERNAL_SERVER_ERROR ts)).

(** [assetsRouter.options('/:certificateHash')]. *)
Definition options (req : Request) : Prog Response :=
  call (Log Debug "Certificate options request received") ;;
  try_catch
    (let mspId := user req in
     let contract := assetContract mspId (locals req) in
     data <- evatuateTransaction contract "CertificateExists" [certificateHash req] ;;
     let exists_ := String.eqb (toString data) "true" in
     if exists_ then
       ts <- toISOString ;;
       Ret (mkResponse OK [("Allow", "DELETE,GET,OPTIONS,PATCH,PUT")]
              (JObj [("status", JStr (getReasonPhrase OK)); ("timestamp", JStr ts)]))
     else
       ts <- toISOString ;;
       Ret (plain NOT_FOUND ts))
    (fun err =>
       call (Log ErrorLevel "Error processing certificate options request") ;;
       ts <- toISOString ;;
       Ret (plain INTERNAL_SERVER_ERROR ts)).

(** [assetsRouter.get('/:certificateHash')]. *)
Definition get_one (req : Request) : Prog Response :=
  call (Log Debug "Read certificate request received") ;;
  try_catch
    (let mspId := user req in
     let contract := assetContract mspId (locals req) in
     data <- evatuateTransaction contract "ValidateCertificate" [certificateHash req] ;;
     certificate <- JSON_parse (toString data) ;;
     Ret (json OK certificate))
    (fun err =>
       call (Log ErrorLevel "Error processing read certificate request") ;;
       if instanceof_AssetNotFoundError err then
         ts <- toISOString ;;
         Ret (plain NOT_FOUND ts)
       else
         ts <- toISOString ;;
         Ret (plain INTERNAL_SERVER_ERROR ts)).

(** *** Running a handler *)

(** What surrounds the router while one request is served: the ledger
    behind [evatuateTransaction] ([./fabric]), [JSON.parse], the clock,
    and [addSubmitTransactionJob] ([./jobs]) acting on the submission
    queue.  None of them is the router's code: they are taken as given. *)
Record World : Type := mkWorld {
  ledger : option Contract -> string -> list string -> Result Exn Buffer;
  parse : string -> option Json;
  isoNow : string;
  addJob : string -> string -> list Json -> Store -> Result Exn string * Store
}.

(** A call, as it shows in the record of what a handler did. *)
Inductive Call : Type :=
| CEvaluate (contract : option Contract) (name : string) (xs : list string)
| CAddJob (mspId name : string) (xs : list Json)
| CParse (text : string)
| CNow
| CLog (level : LogLevel) (msg : string).

Definition call_of {X : Type} (ev : Event X) : Call :=
  match ev with
  | EvatuateTransaction c n xs => CEvaluate c n xs
  | AddSubmitTransactionJob m n xs => CAddJob m n xs
  | JSONparse t => CParse t
  | DateNow => CNow
  | Log l m => CLog l m
  end.

(** Modelled from the spec: [addSubmitTransactionJob] ([./jobs], not in
    the sources) as the producer's [enqueue] on the Job Store: "the
    enqueue path talks to 4.1 directly" (section 4.4); an unreachable
    store surfaces as a thrown error.  The job id travels as a decimal
    string. *)
Definition submit_job (up : bool) (now : N) (mspId name : string) (xs : list Json)
    (q : Store) : Result Exn string * Store :=
  match enqueue up now mspId name xs q with
  | Ok (id, q') => (Ok (NilZero.string_of_uint (Nat.to_uint id)), q')
  | Err _ => (Err (Error "StoreUnavailable" "submission queue unreachable"), q)
  end.

Definition handle {X : Type} (w : World) (ev : Event X) (q : Store) : X * Store :=
  match ev in Event T return T * Store with
  | EvatuateTransaction c n xs => (ledger w c n xs, q)
  | AddSubmitTransactionJob m n xs => addJob w m n xs q
  | JSONparse t =>
      (match parse w t with
       | Some v => Ok v
       | None => Err (Error "SyntaxError" "Unexpected token in JSON")
       end, q)
  | DateNow => (isoNow w, q)
  | Log _ _ => (tt, q)
  end.

Record Outcome (A : Type) : Type := mkOutcome {
  result : Result Exn A;
  queue : Store;
  trace : list Call
}.

Fixpoint exec {A : Type} (w : World) (p : Prog A) (q : Store) : Outcome A :=
  match p with
  | Ret a => mkOutcome (Ok a) q []
  | Throw e => mkOutcome (Err e) q []
  | Vis ev k =>
      let (x, q') := handle w ev q in
      let o := exec w (k x) q' in
      mkOutcome (result o) (queue o) (call_of ev :: trace o)
  end.

Definition is_add_job (c : Call) : bool :=
  match c with
  | CAddJob _ _ _ => true
  | _ => false
  end.

Definition is_parse (c : Call) : bool :=
  match c with
  | CParse _ => true
  | _ => false
  end.

(** Handler code that never asks for a job to be enqueued. *)
Inductive reads_only {A : Type} : Prog A -> Prop :=
| ro_ret a : reads_only (Ret a)
| ro_throw e : reads_only (Throw e)
| ro_vis X (ev : Event X) k :
    is_add_job (call_of ev) = false -> (forall x, reads_only (k x)) ->
    reads_only (Vis ev k).

(** The transaction arguments [post] hands to [addSubmitTransactionJob]. *)
Definition issueArgs (b : Json) : list Json :=
  [prop "CertificateHash" b; prop "CertificateDate" b; prop "StudentId" b;
   prop "StudentName" b; prop "StudentCPF" b; prop "CourseName" b;
   prop "CourseHours" b; prop "CourseCompletionDate" b; prop "InstitutionName" b].

(** The answer [post] gives to a body that fails validation. *)
Definition validationFailure (ts : string) (errors : list ValidationError) : Response :=
  json BAD_REQUEST
    (JObj [("status", JStr "Bad Request");
           ("reason", JStr "VALIDATION_ERROR");
           ("message", JStr "Invalid request body");
           ("timestamp", JStr ts);
           ("errors", errors_array errors)]).

(** The answer [post] gives once the job is queued. *)
Definition accepted (ts : string) (id : string) : Response :=
  json ACCEPTED
    (JObj [("status", JStr "Accepted"); ("jobId", JStr id);
           ("timestamp", JStr ts)]).

(** The declared validations, read off [certificateChains]: the body is
    an object, none of the nine fields is empty, and the two numeric
    fields are numeric. *)
Definition requiredFields : list string :=
  ["CertificateHash"; "CertificateDate"; "StudentId"; "StudentName"; "StudentCPF";
   "CourseName"; "CourseHours"; "CourseCompletionDate"; "InstitutionName"].

Definition numericFields : list string := ["StudentId"; "CourseHours"].

Definition fails_validation (V : Validators) (b : Json) : Prop :=
  isObject V b = false
  \/ (exists f, In f requiredFields /\ notEmpty V (prop f b) = false)
  \/ (exists f, In f numericFields /\ isNumeric V (prop f b) = false).

(** Sample surroundings the statements below are exercised on. *)
Definition digits (s : string) : bool :=
  negb (String.eqb s "")
  && forallb (fun c => Nat.leb 48 (nat_of_ascii c) && Nat.leb (nat_of_ascii c) 57)
             (list_ascii_of_string s).

Definition sampleValidators : Validators :=
  mkValidators
    (fun v => match v with JObj _ => true | _ => false end)
    (fun v => match v with
              | JUndefined | JNull => false
              | JStr s => negb (String.eqb s "")
              | _ => true
              end)
    (fun v => match v with
              | JNum _ => true
              | JStr s => digits s
              | _ => false
              end).

Definition sampleLedger (c : option Contract) (name : string) (xs : list string)
    : Result Exn Buffer :=
  match c with
  | None => Err (Error "TypeError" "Cannot read properties of undefined")
  | Some _ =>
      if String.eqb name "GetAllCertificates" then Ok []
      else if String.eqb name "CertificateExists" then Ok (list_byte_of_string "true")
      else match xs with
           | [h] => if String.eqb h "abc123" then Ok (list_byte_of_string "{}")
                    else Err (AssetNotFoundError "certificate does not exist")
           | _ => Err (Error "Error" "wrong number of arguments")
           end
  end.

Definition sampleWorld : World :=
  mkWorld sampleLedger
          (fun t => if String.eqb t "{}" then Some (JObj []) else None)
          "2024-01-01T00:00:00.000Z" (submit_job true 1704067200000).

Definition sampleCertificate : Json :=
  JObj [("CertificateHash", JStr "abc123"); ("CertificateDate", JStr "2024-01-01");
        ("StudentId", JNum 7); ("StudentName", JStr "Ana"); ("StudentCPF", JStr "000");
        ("CourseName", JStr "Logic"); ("CourseHours", JNum 40);
        ("CourseCompletionDate", JStr "2023-12-01"); ("InstitutionName", JStr "UF")].

Definition sampleRequest (b : Json) (hash : string) : Request :=
  mkRequest "Org1MSP" b hash [("Org1MSP", mkContract "Org1MSP")].

End Router.

(** ** Reading the record of calls *)

Module Calls.
Import Router.
Local Open Scope string_scope.

Definition is_evaluate (c : Call) : bool :=
  match c with
  | CEvaluate _ _ _ => true
  | _ => false
  end.

(** A queue that cannot be reached. *)
Definition downWorld : World :=
  mkWorld sampleLedger (parse sampleWorld) (isoNow sampleWorld)
          (submit_job false 1704067200000).

End Calls.

(** ** The [.env] generator ([src/unnamed/part_000])

    The script writes each certificate and private key into [.env] as
    ["$(cat FILE | sed -e 's/$/\\n/' | tr -d '\r\n')"]: one line of text
    in which every line of the file is followed by the two characters
    backslash and n.  The pipeline runs inside a command substitution,
    which discards NUL bytes and trailing newlines. *)

Module EnvScript.

Definition NUL : ascii := "000"%char.
Definition LF : ascii := "010"%char.
Definition CR : ascii := "013"%char.
Definition backslash : ascii := "092"%char.
Definition letter_n : ascii := "n"%char.

(** [sed -e 's/$/\\n/']: line by line, the line, then backslash and n,
    then the newline that ended it.  [pending] says that an unfinished
    line has begun; a last line without a newline is treated like the
    others, and no line at all gives no output. *)
Fixpoint sed_eol (pending : bool) (l : list ascii) : list ascii :=
  match l with
  | [] => if pending then [backslash; letter_n] else []
  | c :: r =>
      if Ascii.eqb c LF then backslash :: letter_n :: LF :: sed_eol false r
      else c :: sed_eol true r
  end.

(** [tr -d '\r\n']. *)
Definition tr_d (l : list ascii) : list ascii :=
  filter (fun c => negb (Ascii.eqb c CR) && negb (Ascii.eqb c LF)) l.

(** [$(...)]: bash keeps the output of the pipeline without its NUL
    bytes and without the newlines at its end. *)
Definition drop_nul (l : list ascii) : list ascii :=
  filter (fun c => negb (Ascii.eqb c NUL)) l.

Fixpoint strip_newlines (l : list ascii) : list ascii :=
  match l with
  | [] => []
  | c :: r =>
      match strip_newlines r with
      | [] => if Ascii.eqb c LF then [] else [c]
      | d :: r' => c :: d :: r'
      end
  end.

Definition command_substitution (out : list ascii) : list ascii :=
  strip_newlines (drop_nul out).

(** The value written for a file with the given content. *)
Definition env_value (file : list ascii) : list ascii :=
  command_substitution (tr_d (sed_eol false file)).

(** The same text with DOS line ends. *)
Fixpoint to_crlf (l : list ascii) : list ascii :=
  match l with
  | [] => []
  | c :: r => if Ascii.eqb c LF then CR :: LF :: to_crlf r else c :: to_crlf r
  end.

(** Reading backslash-n back as a newline. *)
Fixpoint unescape (l : list ascii) : list ascii :=
  match l with
  | [] => []
  | c :: r =>
      match r with
      | d :: r' =>
          if Ascii.eqb c backslash && Ascii.eqb d letter_n then LF :: unescape r'
          else c :: unescape r
      | [] => [c]
      end
  end.

Definition plain_char (c : ascii) : bool :=
  negb (Ascii.eqb c CR) && negb (Ascii.eqb c backslash) && negb (Ascii.eqb c NUL).

Definition samplePem : list ascii :=
  list_ascii_of_string
    ("-----BEGIN CERTIFICATE-----" ++ String LF ("MIIB" ++ String LF
     ("-----END CERTIFICATE-----" ++ String LF ""))).

End EnvScript.

(** * Properties *)

Unset Implicit Arguments.
Import JobStore Retry Worker.

(** ** Looking jobs up *)

Section Lookup.

Lemma find_job_app id l1 l2 :
  find_job id (l1 ++ l2)
  = match find_job id l1 with
    | Some j => Some j
    | None => find_job id l2
    end.
Proof.
  induction l1 as [|x l1 IH]; simpl; [reflexivity|].
  destruct (Nat.eqb (jobId x) id); [reflexivity | exact IH].
Qed.

Lemma find_job_some id l j :
  find_job id l = Some j -> jobId j = id /\ In j l.
Proof.
  induction l as [|x l IH]; simpl; [discriminate|].
  destruct (Nat.eqb (jobId x) id) eqn:E.
  - intros [= <-]. apply Nat.eqb_eq in E. auto.
  - intros H. destruct (IH H). auto.
Qed.

Lemma find_job_fresh id l :
  ~ In id (map jobId l) -> find_job id l = None.
Proof.
  induction l as [|x l IH]; simpl; [reflexivity|].
  intros H. destruct (Nat.eqb_spec (jobId x) id); [tauto|].
  apply IH. tauto.
Qed.

(** A job found by its id splits the list around it. *)
Lemma find_job_split id l j :
  find_job id l = Some j ->
  exists l1 l2, l = l1 ++ j :: l2 /\ find_job id l1 = None /\ jobId j = id.
Proof.
  induction l as [|x l IH]; simpl; [discriminate|].
  destruct (Nat.eqb (jobId x) id) eqn:E.
  - intros [= <-]. exists [], l. apply Nat.eqb_eq in E. auto.
  - intros H. destruct (IH H) as (l1 & l2 & -> & Hn & Hid).
    exists (x :: l1), l2. simpl. rewrite E. auto.
Qed.

Lemma find_job_at id l1 j l2 :
  find_job id l1 = None -> jobId j = id -> find_job id (l1 ++ j :: l2) = Some j.
Proof.
  intros Hn Hid. rewrite find_job_app, Hn. simpl.
  rewrite Hid, Nat.eqb_refl. reflexivity.
Qed.

(** Where ids are unique, the job at a position is the one its id finds. *)
Lemma find_job_unique l1 j l2 :
  NoDup (map jobId (l1 ++ j :: l2)) -> find_job (jobId j) (l1 ++ j :: l2) = Some j.
Proof.
  intros Hnd. apply find_job_at; [|reflexivity].
  apply find_job_fresh. rewrite map_app in Hnd. simpl in Hnd.
  apply NoDup_remove_2 in Hnd. intros Hin. apply Hnd, in_or_app. auto.
Qed.

(** Replacing a job by one of the same id changes what that id finds, and
    nothing else. *)
Lemma find_job_moved id l1 j j' l2 :
  jobId j' = jobId j ->
  find_job id (l1 ++ j' :: l2) = find_job id (l1 ++ j :: l2)
  \/ (find_job id (l1 ++ j :: l2) = Some j /\ find_job id (l1 ++ j' :: l2) = Some j').
Proof.
  intros Hid. rewrite !find_job_app.
  destruct (find_job id l1); [left; reflexivity|].
  simpl. rewrite Hid.
  destruct (Nat.eqb (jobId j) id); [right; split; reflexivity | left; reflexivity].
Qed.

Lemma job_step_id j j' : job_step j j' -> jobId j' = jobId j.
Proof. destruct 1; reflexivity. Qed.

Lemma job_step_live j j' : job_step j j' -> is_terminal (state j) = false.
Proof. destruct 1 as [? ? H|? ? ? ? H|? ? ? H|? ? ? H]; rewrite H; reflexivity. Qed.

Lemma job_step_ok j j' : job_step j j' -> step_ok (Some (state j)) (state j') = true.
Proof. destruct 1 as [? ? H|? ? ? ? H|? ? ? H|? ? ? H]; rewrite H; reflexivity. Qed.

End Lookup.

(** ** What each operation does to the list of jobs *)

Section Shape.

Lemma with_job_at id f l1 j l2 :
  find_job id l1 = None -> jobId j = id ->
  with_job id f (l1 ++ j :: l2)
  = match f j with
    | Ok j' => Ok (l1 ++ j' :: l2)
    | Err e => Err e
    end.
Proof.
  induction l1 as [|x l1 IH]; simpl; intros Hn Hid.
  - rewrite Hid, Nat.eqb_refl. reflexivity.
  - destruct (Nat.eqb (jobId x) id); [discriminate|].
    rewrite (IH Hn Hid). destruct (f j); reflexivity.
Qed.

Lemma with_job_missing id f l :
  find_job id l = None -> with_job id f l = Err JobNotFound.
Proof.
  induction l as [|x l IH]; simpl; [reflexivity|].
  destruct (Nat.eqb (jobId x) id); [discriminate|].
  intros H. rewrite (IH H). reflexivity.
Qed.

Lemma with_job_ok id f l l' :
  with_job id f l = Ok l' ->
  exists l1 j j' l2,
    l = l1 ++ j :: l2 /\ l' = l1 ++ j' :: l2 /\ f j = Ok j'
    /\ find_job id l1 = None /\ jobId j = id.
Proof.
  destruct (find_job id l) as [j|] eqn:Hf.
  - destruct (find_job_split _ _ _ Hf) as (l1 & l2 & -> & Hn & Hid).
    rewrite (with_job_at id f l1 j l2 Hn Hid).
    destruct (f j) as [j'|] eqn:Hj; [|discriminate].
    intros [= <-]. exists l1, j, j', l2. auto.
  - rewrite (with_job_missing id f l Hf). discriminate.
Qed.

Lemma claim_first_some m now l c l' :
  claim_first m now l = Some (c, l') ->
  exists l1 j l2,
    l = l1 ++ j :: l2 /\ l' = l1 ++ c :: l2 /\ c = activate now j
    /\ eligible m now j = true
    /\ Forall (fun x => eligible m now x = false) l1.
Proof.
  revert c l'. induction l as [|x l IH]; simpl; intros c l'; [discriminate|].
  destruct (eligible m now x) eqn:E.
  - intros [= <- <-]. exists [], x, l. repeat split; auto.
  - destruct (claim_first m now l) as [[c0 r]|]; [|discriminate].
    intros [= <- <-].
    destruct (IH _ _ eq_refl) as (l1 & j & l2 & -> & -> & Hc & He & Hall).
    exists (x :: l1), j, l2. repeat split; auto.
Qed.

Lemma eligible_queued m now j : eligible m now j = true -> state j = Queued.
Proof. unfold eligible. destruct (state j); congruence. Qed.

Lemma complete_result_step now tx pl j j' :
  complete_result now tx pl j = Ok j' -> j' = j \/ job_step j j'.
Proof.
  unfold complete_result. destruct (state j) eqn:E; try discriminate.
  - intros [= <-]. right. constructor. exact E.
  - destruct (same_result tx pl j); [|discriminate]. intros [= <-]. auto.
Qed.

Lemma complete_error_step now d j j' :
  complete_error now d j = Ok j' -> j' = j \/ job_step j j'.
Proof.
  unfold complete_error. destruct (state j) eqn:E; try discriminate.
  - intros [= <-]. right. constructor. exact E.
  - destruct (lastError j) as [d'|]; [|discriminate].
    destruct (ErrorDetail_eq_dec d' d); [|discriminate]. intros [= <-]. auto.
Qed.

Lemma requeue_step now delay j j' :
  requeue now delay j = Ok j' -> job_step j j'.
Proof.
  unfold requeue. destruct (state j) eqn:E; try discriminate.
  intros [= <-]. constructor. exact E.
Qed.

Lemma with_job_shape s id f :
  (forall j j', f j = Ok j' -> j' = j \/ job_step j j') ->
  forall l', with_job id f (jobs s) = Ok l' -> jobs_step s l' (nextId s).
Proof.
  intros Hf l' H.
  destruct (with_job_ok _ _ _ _ H) as (l1 & j & j' & l2 & Hl & -> & Hj & _ & _).
  destruct (Hf _ _ Hj) as [->|Hs].
  - rewrite <- Hl. constructor.
  - econstructor; eassumption.
Qed.

(** Every operation of the store is one of the three shapes. *)
Lemma apply_op_shape op s :
  jobs_step s (jobs (apply_op op s)) (nextId (apply_op op s))
  /\ skewMargin (apply_op op s) = skewMargin s.
Proof.
  destruct op as [up now idn fn xs|now|now id tx pl|now id d|now id delay|id]; simpl.
  - unfold enqueue. destruct up; simpl; split; try reflexivity; constructor.
  - unfold claimNext.
    destruct (claim_first (skewMargin s) now (jobs s)) as [[c l]|] eqn:E; simpl.
    + split; [|reflexivity].
      destruct (claim_first_some _ _ _ _ _ E) as (l1 & j & l2 & Hl & -> & -> & He & _).
      econstructor; [eassumption|]. constructor. eapply eligible_queued; eassumption.
    + split; [constructor | reflexivity].
  - unfold completeWithResult.
    destruct (with_job id (complete_result now tx pl) (jobs s)) eqn:E; simpl.
    + split; [|reflexivity].
      eapply with_job_shape; [|eassumption]. apply complete_result_step.
    + split; [constructor | reflexivity].
  - unfold completeWithError.
    destruct (with_job id (complete_error now d) (jobs s)) eqn:E; simpl.
    + split; [|reflexivity].
      eapply with_job_shape; [|eassumption]. apply complete_error_step.
    + split; [constructor | reflexivity].
  - unfold requeueWithBackoff.
    destruct (with_job id (requeue now delay) (jobs s)) eqn:E; simpl.
    + split; [|reflexivity].
      eapply with_job_shape; [|eassumption]. intros. right. eapply requeue_step; eassumption.
    + split; [constructor | reflexivity].
  - split; [constructor | reflexivity].
Qed.

End Shape.

(** ** The lifecycle of one job *)

Section Lifecycle.

(** What a single call does to the record of job [id]: nothing, creates
    it as a fresh [queued] job, or moves it by one transition. *)
Lemma job_view op s id :
  find_job id (jobs (apply_op op s)) = find_job id (jobs s)
  \/ (find_job id (jobs s) = None
      /\ exists j, find_job id (jobs (apply_op op s)) = Some j
           /\ state j = Queued /\ attempts j = 0 /\ lastError j = None)
  \/ (exists j j', find_job id (jobs s) = Some j
        /\ find_job id (jobs (apply_op op s)) = Some j' /\ job_step j j').
Proof.
  destruct (apply_op_shape op s) as [H _].
  remember (jobs (apply_op op s)) as l' eqn:El.
  remember (nextId (apply_op op s)) as n eqn:En.
  destruct H as [|now idn fn xs|l1 j j' l2 Hl Hs].
  - auto.
  - rewrite find_job_app.
    destruct (find_job id (jobs s)) as [j|] eqn:E; [left; reflexivity|].
    simpl. destruct (Nat.eqb (nextId s) id); [|left; reflexivity].
    right; left. split; [reflexivity|]. eexists. split; [reflexivity|]. auto.
  - rewrite Hl.
    destruct (find_job_moved id l1 j j' l2 (job_step_id _ _ Hs)) as [E|[E1 E2]].
    + left. exact E.
    + right; right. exists j, j'. auto.
Qed.

(** A job in a terminal state is frozen: no call changes its record. *)
Lemma terminal_frozen op s id j :
  find_job id (jobs s) = Some j -> is_terminal (state j) = true ->
  find_job id (jobs (apply_op op s)) = Some j.
Proof.
  intros Hf Ht.
  destruct (job_view op s id) as [E|[[E _]|(j0 & j' & E & _ & Hs)]].
  - congruence.
  - congruence.
  - assert (j0 = j) by congruence. subst j0.
    apply job_step_live in Hs. congruence.
Qed.


Lemma op_step_ok op s id :
  stateOf id (apply_op op s) = stateOf id s
  \/ exists st, stateOf id (apply_op op s) = Some st
       /\ step_ok (stateOf id s) st = true.
Proof.
  unfold stateOf.
  destruct (job_view op s id) as [E|[[E (j & Ej & Hq & _)]|(j & j' & E & E' & Hs)]].
  - left. rewrite E. reflexivity.
  - right. exists Queued. rewrite E, Ej. simpl. rewrite Hq. auto.
  - right. exists (state j'). rewrite E, E'. simpl. split; [reflexivity|].
    apply job_step_ok. exact Hs.
Qed.

(** Re-entering the queue from [active] raises the attempt count by one. *)
Lemma requeue_counts op s id :
  stateOf id s = Some Active -> stateOf id (apply_op op s) = Some Queued ->
  exists a, attemptsOf id s = Some a /\ attemptsOf id (apply_op op s) = Some (S a).
Proof.
  unfold stateOf, attemptsOf. intros Ha Hq.
  destruct (job_view op s id) as [E|[[E _]|(j & j' & E & E' & Hs)]].
  - rewrite E in Hq. congruence.
  - rewrite E in Ha. discriminate.
  - rewrite E in Ha. rewrite E' in Hq. rewrite E, E'. simpl in *.
    exists (attempts j). split; [reflexivity|].
    destruct Hs as [? ? H|? ? ? ? H|? ? ? H|? ? ? H]; simpl in *; try congruence.
Qed.

Lemma changed_same st : changed st st = [].
Proof. destruct st as [[]|]; reflexivity. Qed.

Lemma changed_step cur st :
  step_ok cur st = true -> changed cur (Some st) = [st].
Proof. destruct cur as [[]|], st; simpl; congruence. Qed.

(** The recorded lifecycle only ever makes permitted moves. *)
Lemma lifecycle_chain id ops :
  forall s, chain (stateOf id s) (lifecycle id s ops) = true.
Proof.
  induction ops as [|op ops IH]; intros s; simpl; [reflexivity|].
  destruct (op_step_ok op s id) as [E|(st & E & Hok)].
  - rewrite E, changed_same. simpl. rewrite <- E. apply IH.
  - rewrite E, (changed_step _ _ Hok). simpl. rewrite Hok. simpl.
    rewrite <- E. apply IH.
Qed.

(** Permitted moves from [queued] and from [active] spell out the
    pattern [(active queued)* ...] up to a terminal state. *)
Lemma chain_shape l :
  (chain (Some Queued) l = true ->
   exists rest n t, is_terminal t = true
     /\ l ++ rest = [Active] ++ List.concat (repeat [Queued; Active] n) ++ [t])
  /\ (chain (Some Active) l = true ->
      exists rest n t, is_terminal t = true
        /\ l ++ rest = List.concat (repeat [Queued; Active] n) ++ [t]).
Proof.
  induction l as [|x l [IHq IHa]]; split; intros H.
  - exists [Active; Completed], 0, Completed. auto.
  - exists [Completed], 0, Completed. auto.
  - simpl in H. destruct x; simpl in H; try discriminate.
    destruct (IHa H) as (rest & n & t & Ht & E).
    exists rest, n, t. split; [exact Ht|]. simpl. rewrite E. reflexivity.
  - simpl in H. destruct x; simpl in H; try discriminate.
    + destruct (IHq H) as (rest & n & t & Ht & E).
      exists rest, (S n), t. split; [exact Ht|]. simpl. rewrite E. reflexivity.
    + destruct l as [|y l]; [|destruct y; discriminate].
      exists [], 0, Completed. auto.
    + destruct l as [|y l]; [|destruct y; discriminate].
      exists [], 0, Failed. auto.
Qed.

Lemma chain_prefix l : chain None l = true -> lifecycle_prefix l.
Proof.
  destruct l as [|x l]; intros H.
  - exists [Queued; Active; Completed], 0, Completed. auto.
  - simpl in H. destruct x; simpl in H; try discriminate.
    destruct (proj1 (chain_shape l) H) as (rest & n & t & Ht & E).
    exists rest, n, t. split; [exact Ht|]. simpl. rewrite E. reflexivity.
Qed.

(** C1. For every job and every sequence of Job Store operations, the
    job's lifecycle is a prefix of
    queued -> active -> (queued -> active)* -> {completed|failed}; once the
    job is completed or failed no operation changes it; and every
    active -> queued re-entry increments the attempt count. *)
Theorem lifecycle_monotonic (margin : N) (ops : list Op) (id : nat) :
  lifecycle_prefix (lifecycle id (JobStore.empty margin) ops)
  /\ (forall s op j,
        find_job id (jobs s) = Some j -> is_terminal (state j) = true ->
        find_job id (jobs (apply_op op s)) = Some j
        /\ stateOf id (apply_op op s) = stateOf id s)
  /\ (forall s op,
        stateOf id s = Some Active -> stateOf id (apply_op op s) = Some Queued ->
        exists a, attemptsOf id s = Some a
               /\ attemptsOf id (apply_op op s) = Some (S a)).
Proof.
  split; [|split].
  - apply chain_prefix.
    exact (lifecycle_chain id ops (JobStore.empty margin)).
  - intros s op j Hf Ht.
    pose proof (terminal_frozen op s id j Hf Ht) as E.
    split; [exact E|]. unfold stateOf. rewrite E, Hf. reflexivity.
  - intros s op. apply requeue_counts.
Qed.

End Lifecycle.

(** ** Completing twice *)

Section Idempotence.

Lemma same_result_completed now tx pl j :
  same_result tx pl (completed now tx pl j) = true.
Proof.
  unfold same_result. simpl.
  destruct (string_dec tx tx); [|congruence].
  destruct (Buffer_eq_dec pl pl); [reflexivity | congruence].
Qed.

Lemma complete_result_again now1 now2 tx pl j :
  complete_result now2 tx pl (completed now1 tx pl j) = Ok (completed now1 tx pl j).
Proof.
  unfold complete_result. simpl state.
  rewrite same_result_completed. reflexivity.
Qed.

Lemma complete_error_again now1 now2 d j :
  complete_error now2 d (failed now1 d j) = Ok (failed now1 d j).
Proof.
  unfold complete_error. simpl.
  destruct (ErrorDetail_eq_dec d d); [reflexivity | congruence].
Qed.

(** C6. For a job in state active, completing it twice with the same
    arguments leaves the store as completing it once: the second call
    succeeds and changes nothing (whatever the clock says by then). *)
Theorem complete_idempotent (s : Store) (id : nat) (j : SubmissionJob)
    (now1 now2 : N) (tx : string) (pl : Buffer) (d : ErrorDetail) :
  find_job id (jobs s) = Some j -> state j = Active ->
  (exists s1, completeWithResult now1 id tx pl s = Ok s1
           /\ completeWithResult now2 id tx pl s1 = Ok s1
           /\ stateOf id s1 = Some Completed)
  /\ (exists s1, completeWithError now1 id d s = Ok s1
              /\ completeWithError now2 id d s1 = Ok s1
              /\ stateOf id s1 = Some Failed).
Proof.
  intros Hf Ha.
  destruct (find_job_split id (jobs s) j Hf) as (l1 & l2 & Hl & Hn & Hid).
  split.
  - exists (set_jobs s (l1 ++ completed now1 tx pl j :: l2)).
    unfold completeWithResult. rewrite Hl.
    rewrite (with_job_at id _ l1 j l2 Hn Hid).
    unfold complete_result at 1. rewrite Ha. split; [reflexivity|].
    simpl jobs.
    rewrite (with_job_at id _ l1 (completed now1 tx pl j) l2 Hn Hid).
    rewrite complete_result_again.
    split; [reflexivity|].
    unfold stateOf. simpl jobs.
    rewrite (find_job_at id l1 (completed now1 tx pl j) l2 Hn Hid). reflexivity.
  - exists (set_jobs s (l1 ++ failed now1 d j :: l2)).
    unfold completeWithError. rewrite Hl.
    rewrite (with_job_at id _ l1 j l2 Hn Hid).
    unfold complete_error at 1. rewrite Ha. split; [reflexivity|].
    simpl jobs.
    rewrite (with_job_at id _ l1 (failed now1 d j) l2 Hn Hid).
    rewrite complete_error_again.
    split; [reflexivity|].
    unfold stateOf. simpl jobs.
    rewrite (find_job_at id l1 (failed now1 d j) l2 Hn Hid). reflexivity.
Qed.

End Idempotence.

(** ** The worker pool *)

Section Pool.

Variable p : RetryPolicy.

Lemma ceiling_le_maximum k : ceiling p k <= maximumAttempts p.
Proof. destruct k; simpl; lia. Qed.

Lemma Forall_moved {A} (P : A -> Prop) l1 j j' l2 :
  Forall P (l1 ++ j :: l2) -> P j' -> Forall P (l1 ++ j' :: l2).
Proof.
  intros H Hj. apply Forall_app in H. destruct H as [H1 H2].
  apply Forall_app. split; [exact H1|].
  inversion H2; subst. constructor; assumption.
Qed.

Lemma map_jobId_moved l1 j j' l2 :
  jobId j' = jobId j -> map jobId (l1 ++ j' :: l2) = map jobId (l1 ++ j :: l2).
Proof. intros H. rewrite !map_app. simpl. rewrite H. reflexivity. Qed.

(** Unique ids below the counter survive every shape of change. *)
Lemma wf_step s s' :
  wf s -> jobs_step s (jobs s') (nextId s') -> wf s'.
Proof.
  intros [Hnd Hlt] H. unfold wf.
  remember (jobs s') as l eqn:El. remember (nextId s') as n eqn:En.
  destruct H as [|now idn fn xs|l1 j j' l2 Hl Hs].
  - split; assumption.
  - split.
    + rewrite map_app. apply NoDup_app; [exact Hnd | repeat constructor; simpl; tauto |].
      intros a Ha [<-|[]]. simpl in Ha.
      apply in_map_iff in Ha. destruct Ha as (x & Hx & Hin).
      rewrite Forall_forall in Hlt. specialize (Hlt x Hin). lia.
    + apply Forall_app. split.
      * eapply Forall_impl; [|exact Hlt]. simpl. intros; lia.
      * repeat constructor.
  - rewrite Hl in Hnd, Hlt. split.
    + rewrite (map_jobId_moved l1 j j' l2 (job_step_id _ _ Hs)). exact Hnd.
    + apply (Forall_moved _ l1 j j' l2 Hlt).
      rewrite (job_step_id _ _ Hs). exact (Forall_elt _ _ _ Hlt).
Qed.

Lemma wf_apply_op op s : wf s -> wf (apply_op op s).
Proof.
  intros H. apply (wf_step s); [exact H|]. apply apply_op_shape.
Qed.

(** What [resolve] does to a job it finds [active]. *)
Lemma resolve_active now rnd id o s l1 j l2 :
  jobs s = l1 ++ j :: l2 -> find_job id l1 = None -> jobId j = id ->
  state j = Active ->
  resolve p now rnd id o s = Ok (set_jobs s (l1 ++ resolved p now rnd o j :: l2)).
Proof.
  intros Hl Hn Hid Ha. unfold resolve, resolved.
  destruct o as [tx pl|k msg].
  - unfold completeWithResult. rewrite Hl, (with_job_at id _ l1 j l2 Hn Hid).
    unfold complete_result. rewrite Ha. reflexivity.
  - destruct (classify p k).
    + unfold get. rewrite Hl, (find_job_at id l1 j l2 Hn Hid).
      destruct (Nat.ltb (attempts j) (ceiling p k)).
      * unfold requeueWithBackoff. rewrite Hl, (with_job_at id _ l1 j l2 Hn Hid).
        unfold requeue. rewrite Ha. reflexivity.
      * unfold completeWithError. rewrite Hl, (with_job_at id _ l1 j l2 Hn Hid).
        unfold complete_error. rewrite Ha. reflexivity.
    + unfold completeWithError. rewrite Hl, (with_job_at id _ l1 j l2 Hn Hid).
      unfold complete_error. rewrite Ha. reflexivity.
Qed.

Lemma resolved_step now rnd o j :
  state j = Active -> job_step j (resolved p now rnd o j).
Proof.
  intros Ha. unfold resolved. destruct o as [tx pl|k msg].
  - constructor. exact Ha.
  - destruct (classify p k); [|constructor; exact Ha].
    destruct (Nat.ltb (attempts j) (ceiling p k)); constructor; exact Ha.
Qed.

Lemma resolved_attempts now rnd o j :
  attempts j <= maximumAttempts p ->
  attempts (resolved p now rnd o j) <= maximumAttempts p.
Proof.
  intros H. unfold resolved. destruct o as [tx pl|k msg]; [exact H|].
  destruct (classify p k); [|exact H].
  pose proof (ceiling_le_maximum k).
  destruct (Nat.ltb_spec (attempts j) (ceiling p k)); simpl; lia.
Qed.

Lemma resolved_error now rnd o j :
  lastError j = None ->
  lastError (resolved p now rnd o j) <> None -> state (resolved p now rnd o j) = Failed.
Proof.
  intros Hn. unfold resolved. destruct o as [tx pl|k msg]; simpl.
  - congruence.
  - destruct (classify p k); [|reflexivity].
    destruct (Nat.ltb (attempts j) (ceiling p k)); simpl; congruence.
Qed.

Lemma held_by_none w cs : held_by w cs = None -> ~ In w (map fst cs).
Proof.
  induction cs as [|[w' id] cs IH]; simpl; [tauto|].
  destruct (Nat.eqb_spec w' w); [discriminate|].
  intros H [H1|H1]; [tauto | exact (IH H H1)].
Qed.

Lemma held_by_some w cs id : held_by w cs = Some id -> In (w, id) cs.
Proof.
  induction cs as [|[w' id'] cs IH]; simpl; [discriminate|].
  destruct (Nat.eqb_spec w' w).
  - intros [= <-]. subst. auto.
  - auto.
Qed.

(** Where job ids are claimed at most once, a job has one holder. *)
Lemma one_holder (cs : list (nat * nat)) w1 w2 id :
  NoDup (map snd cs) -> In (w1, id) cs -> In (w2, id) cs -> w1 = w2.
Proof.
  induction cs as [|[w id'] cs IH]; simpl; [tauto|].
  intros Hnd H1 H2. inversion Hnd as [|? ? Hnin Hnd']; subst.
  assert (Hin : forall w', In (w', id) cs -> In id (map snd cs)).
  { intros w' H. apply in_map_iff. exists (w', id). auto. }
  destruct H1 as [E1|H1], H2 as [E2|H2].
  - congruence.
  - injection E1 as _ ->. exfalso. eauto.
  - injection E2 as _ ->. exfalso. eauto.
  - auto.
Qed.

Lemma NoDup_map_filter {A B} (f : A -> B) g l :
  NoDup (map f l) -> NoDup (map f (filter g l)).
Proof.
  induction l as [|x l IH]; simpl; [auto|].
  intros H. inversion H as [|? ? Hnin Hnd]; subst.
  destruct (g x); simpl; [|auto].
  constructor; [|auto].
  intros Hin. apply Hnin. apply in_map_iff in Hin.
  destruct Hin as (y & Hy & Hin). apply filter_In in Hin.
  apply in_map_iff. exists y. tauto.
Qed.

Lemma live_no_error j :
  (lastError j <> None -> state j = Failed) ->
  is_terminal (state j) = false -> lastError j = None.
Proof.
  intros H Hl. destruct (lastError j) as [d|]; [|reflexivity].
  rewrite H in Hl; [discriminate | discriminate].
Qed.

Lemma Inv_init margin : Inv p (init margin).
Proof. constructor; simpl; repeat constructor. Qed.

Lemma Inv_enqueue up now idn fn xs sys :
  Inv p sys ->
  Inv p (mkSys (apply_op (OpEnqueue up now idn fn xs) (store sys)) (claims sys)).
Proof.
  intros [Hwf Hat Her Hw Hex Hac].
  constructor; cbn [store claims]; try assumption.
  - apply wf_apply_op. exact Hwf.
  - simpl. destruct up; simpl; [|exact Hat].
    apply Forall_app. split; [exact Hat|]. repeat constructor. simpl. lia.
  - simpl. destruct up; simpl; [|exact Her].
    apply Forall_app. split; [exact Her|]. repeat constructor. simpl. congruence.
  - eapply Forall_impl; [|exact Hac]. intros [w id]. unfold stateOf. simpl.
    destruct up; simpl; [|auto].
    rewrite find_job_app. destruct (find_job id (jobs (store sys))); [auto|discriminate].
Qed.

Lemma Inv_claim w now sys :
  Inv p sys -> Inv p (sys_step p (AClaim w now) sys).
Proof.
  intros HI. pose proof HI as [Hwf Hat Her Hw Hex Hac]. simpl.
  destruct (held_by w (claims sys)) eqn:Hh; [exact HI|].
  unfold claimNext.
  destruct (claim_first (skewMargin (store sys)) now (jobs (store sys)))
    as [[c l]|] eqn:E; [|exact HI].
  destruct (claim_first_some _ _ _ _ _ E) as (l1 & j & l2 & Hl & -> & -> & He & _).
  apply eligible_queued in He.
  assert (Hstep : job_step j (activate now j)) by (constructor; exact He).
  assert (Hwf' : wf (set_jobs (store sys) (l1 ++ activate now j :: l2))).
  { apply (wf_step (store sys)); [exact Hwf|]. simpl. econstructor; eassumption. }
  assert (Hj : find_job (jobId j) (jobs (store sys)) = Some j).
  { rewrite Hl. apply find_job_unique. rewrite <- Hl. apply Hwf. }
  assert (Hfree : ~ In (jobId j) (map snd (claims sys))).
  { intros Hin. apply in_map_iff in Hin. destruct Hin as ([w' id'] & Hid & Hin).
    simpl in Hid. subst id'. rewrite Forall_forall in Hac.
    specialize (Hac _ Hin). unfold stateOf in Hac. simpl in Hac.
    rewrite Hj in Hac. simpl in Hac. congruence. }
  rewrite Hl in Hat, Her.
  constructor; cbn [store claims].
  - exact Hwf'.
  - simpl. apply (Forall_moved _ l1 j _ l2 Hat). exact (Forall_elt _ _ _ Hat).
  - simpl. apply (Forall_moved _ l1 j _ l2 Her). simpl.
    intros Hne. pose proof (Forall_elt _ _ _ Her Hne). congruence.
  - simpl. constructor; [apply held_by_none; exact Hh | exact Hw].
  - simpl. constructor; assumption.
  - constructor.
    + unfold stateOf. simpl.
      change (jobId j) with (jobId (activate now j)).
      rewrite find_job_unique; [reflexivity|]. apply Hwf'.
    + rewrite Forall_forall in Hac |- *. intros [w' id'] Hin.
      specialize (Hac _ Hin). unfold stateOf in *. simpl in *.
      destruct (find_job_moved id' l1 j (activate now j) l2 eq_refl) as [Eq|[E1 _]].
      * rewrite Eq, <- Hl. exact Hac.
      * rewrite Hl, E1 in Hac. simpl in Hac. congruence.
Qed.

Lemma Inv_resolve w now rnd o sys :
  Inv p sys -> Inv p (sys_step p (AResolve w now rnd o) sys).
Proof.
  intros HI. pose proof HI as [Hwf Hat Her Hw Hex Hac]. simpl.
  destruct (held_by w (claims sys)) as [id|] eqn:Hh; [|exact HI].
  apply held_by_some in Hh.
  pose proof (proj1 (Forall_forall _ _) Hac _ Hh) as Ha.
  unfold stateOf in Ha. simpl in Ha.
  destruct (find_job id (jobs (store sys))) as [j|] eqn:Hf; [|discriminate].
  simpl in Ha. injection Ha as Ha.
  destruct (find_job_split _ _ _ Hf) as (l1 & l2 & Hl & Hn & Hid).
  rewrite (resolve_active now rnd id o _ l1 j l2 Hl Hn Hid Ha). simpl or_unchanged.
  pose proof (resolved_step now rnd o j Ha) as Hstep.
  rewrite Hl in Hat, Her.
  constructor; cbn [store claims].
  - apply (wf_step (store sys)); [exact Hwf|]. simpl. econstructor; eassumption.
  - simpl. apply (Forall_moved _ l1 j _ l2 Hat).
    apply resolved_attempts. exact (Forall_elt _ _ _ Hat).
  - simpl. apply (Forall_moved _ l1 j _ l2 Her).
    apply resolved_error. apply live_no_error; [exact (Forall_elt _ _ _ Her)|].
    rewrite Ha. reflexivity.
  - apply NoDup_map_filter. exact Hw.
  - apply NoDup_map_filter. exact Hex.
  - rewrite Forall_forall in Hac |- *. intros [w' id'] Hin.
    apply filter_In in Hin. destruct Hin as [Hin Hne]. simpl in Hne.
    specialize (Hac _ Hin). unfold stateOf in *. simpl in *.
    destruct (find_job_moved id' l1 j (resolved p now rnd o j) l2
                (job_step_id _ _ Hstep)) as [Eq|[E1 _]].
    + rewrite Eq, <- Hl. exact Hac.
    + rewrite <- Hl in E1. destruct (find_job_some _ _ _ E1) as [Hid' _].
      assert (E : id' = id) by congruence. rewrite E in Hin.
      rewrite (one_holder _ _ _ _ Hex Hin Hh), Nat.eqb_refl in Hne. discriminate.
Qed.

Lemma Inv_step a sys : Inv p sys -> Inv p (sys_step p a sys).
Proof.
  destruct a as [up now idn fn xs|w now|w now rnd o|id].
  - apply Inv_enqueue.
  - apply Inv_claim.
  - apply Inv_resolve.
  - auto.
Qed.

Lemma Inv_run acts : forall sys, Inv p sys -> Inv p (run p acts sys).
Proof.
  induction acts as [|a acts IH]; intros sys H; simpl; [exact H|].
  apply IH. apply Inv_step. exact H.
Qed.

Lemma reachable_Inv margin sys : reachable p margin sys -> Inv p sys.
Proof.
  intros [acts ->]. apply Inv_run. apply Inv_init.
Qed.

End Pool.

(** ** Claims *)

Section Claims.

Variable p : RetryPolicy.

(** What a successful [claimNext] does on a store with unique ids: one
    job, found [queued] under its id, is [active] afterwards; every
    other position of the list is untouched. *)
Lemma claimNext_spec now s c s' :
  wf s -> claimNext now s = (Some c, s') ->
  wf s'
  /\ stateOf (jobId c) s = Some Queued
  /\ stateOf (jobId c) s' = Some Active
  /\ exists l1 j l2,
       jobs s = l1 ++ j :: l2 /\ jobs s' = l1 ++ c :: l2
       /\ c = activate now j /\ state j = Queued.
Proof.
  intros Hwf. unfold claimNext.
  destruct (claim_first (skewMargin s) now (jobs s)) as [[c0 l]|] eqn:E;
    [|discriminate].
  intros [= <- <-].
  destruct (claim_first_some _ _ _ _ _ E) as (l1 & j & l2 & Hl & -> & -> & He & _).
  apply eligible_queued in He.
  assert (Hwf' : wf (set_jobs s (l1 ++ activate now j :: l2))).
  { apply (wf_step s); [exact Hwf|]. simpl.
    econstructor; [exact Hl|]. constructor. exact He. }
  split; [exact Hwf'|]. unfold stateOf. simpl. repeat split.
  - rewrite Hl, find_job_unique; [simpl; congruence|]. rewrite <- Hl. apply Hwf.
  - change (jobId j) with (jobId (activate now j)).
    rewrite find_job_unique; [reflexivity|]. apply Hwf'.
  - exists l1, j, l2. auto.
Qed.

(** Claim calls served one after the other: in every reachable pool no
    two workers hold the same job; a successful claim moves exactly one
    job, queued before and active after; and the second of two successive
    claims never returns the job the first returned. *)
Lemma serial_claims_differ (margin : N) (sys : Sys) :
  reachable p margin sys ->
  (forall w1 w2 id,
      In (w1, id) (claims sys) -> In (w2, id) (claims sys) -> w1 = w2)
  /\ (forall now c s',
        claimNext now (store sys) = (Some c, s') ->
        stateOf (jobId c) (store sys) = Some Queued
        /\ stateOf (jobId c) s' = Some Active
        /\ exists l1 j l2,
             jobs (store sys) = l1 ++ j :: l2 /\ jobs s' = l1 ++ c :: l2
             /\ c = activate now j /\ state j = Queued)
  /\ (forall now1 now2 c1 c2 s1 s2,
        claimNext now1 (store sys) = (Some c1, s1) ->
        claimNext now2 s1 = (Some c2, s2) ->
        jobId c1 <> jobId c2).
Proof.
  intros Hr. pose proof (reachable_Inv p margin sys Hr) as [Hwf _ _ _ Hex _].
  split; [|split].
  - intros w1 w2 id. apply one_holder. exact Hex.
  - intros now c s' H. apply (claimNext_spec now (store sys) c s' Hwf H).
  - intros now1 now2 c1 c2 s1 s2 H1 H2 Heq.
    destruct (claimNext_spec _ _ _ _ Hwf H1) as (Hwf1 & _ & Ha & _).
    destruct (claimNext_spec _ _ _ _ Hwf1 H2) as (_ & Hq & _).
    rewrite Heq in Ha. congruence.
Qed.

(** A job held by a worker of a reachable pool is [active], carries no
    error, and is the record the worker's resolution rewrites. *)
Lemma resolve_held margin sys w id j :
  reachable p margin sys -> held_by w (claims sys) = Some id ->
  find_job id (jobs (store sys)) = Some j ->
  state j = Active /\ lastError j = None /\ attempts j <= maximumAttempts p
  /\ forall now rnd o,
       find_job id (jobs (store (sys_step p (AResolve w now rnd o) sys)))
       = Some (resolved p now rnd o j).
Proof.
  intros Hr Hh Hf.
  pose proof (reachable_Inv p margin sys Hr) as [Hwf Hat Her _ _ Hac].
  pose proof (held_by_some _ _ _ Hh) as Hin.
  pose proof (proj1 (Forall_forall _ _) Hac _ Hin) as Ha.
  unfold stateOf in Ha. simpl in Ha. rewrite Hf in Ha. simpl in Ha.
  injection Ha as Ha.
  destruct (find_job_split _ _ _ Hf) as (l1 & l2 & Hl & Hn & Hid).
  rewrite Hl in Hat, Her.
  split; [exact Ha|]. split.
  { apply live_no_error; [exact (Forall_elt _ _ _ Her) | rewrite Ha; reflexivity]. }
  split; [exact (Forall_elt _ _ _ Hat)|].
  intros now rnd o. unfold sys_step. rewrite Hh.
  rewrite (resolve_active p now rnd id o _ l1 j l2 Hl Hn Hid Ha).
  cbn [or_unchanged store jobs set_jobs].
  apply find_job_at; [exact Hn|].
  rewrite (job_step_id _ _ (resolved_step p now rnd o j Ha)). exact Hid.
Qed.







(** C5. For every policy and attempt counts [a1 <= a2] below the maximum,
    the delay computed for [a1] is at most the delay computed for [a2],
    and each is at most the cap.  The delay a requeued job waits is
    [base * multiplier^attempt] clamped to the cap, for the attempt being
    scheduled, plus a jitter within the policy's bound. *)
Theorem backoff_monotone_capped (a1 a2 : nat) :
  a1 <= a2 -> a2 < maximumAttempts p ->
  (retryDelay p a1 <= retryDelay p a2)%N
  /\ (retryDelay p a1 <= delayCap p)%N
  /\ (retryDelay p a2 <= delayCap p)%N
  /\ (forall margin sys w id j now rnd k msg,
        reachable p margin sys -> held_by w (claims sys) = Some id ->
        find_job id (jobs (store sys)) = Some j ->
        retryable p k = true -> attempts j < ceiling p k ->
        exists j',
          find_job id
            (jobs (store (sys_step p (AResolve w now rnd (SubmitErr k msg)) sys)))
          = Some j'
          /\ state j' = Queued
          /\ attempts j' = S (attempts j)
          /\ notBefore j'
             = (now + (N.min (baseDelay p * multiplier p ^ N.of_nat (attempts j'))
                             (delayCap p)
                       + jitter p rnd))%N
          /\ (jitter p rnd <= jitterBound p)%N).
Proof.
  intros Hle _. split; [|split; [|split]].
  - unfold retryDelay, backoffDelay.
    apply N.min_le_compat_r, N.mul_le_mono_l.
    destruct (N.eq_dec (multiplier p) 0) as [E|E].
    + rewrite E, !N.pow_0_l by lia. apply N.le_refl.
    + apply N.pow_le_mono_r; [exact E | lia].
  - apply N.le_min_r.
  - apply N.le_min_r.
  - intros margin sys w id j now rnd k msg Hr Hh Hf Hk Hlt.
    destruct (resolve_held margin sys w id j Hr Hh Hf) as (_ & _ & _ & Hres).
    exists (requeued now (retryDelay p (attempts j) + jitter p rnd) j).
    split.
    { rewrite Hres. unfold resolved, classify. rewrite Hk.
      apply Nat.ltb_lt in Hlt. rewrite Hlt. reflexivity. }
    split; [reflexivity|]. split; [reflexivity|]. split; [reflexivity|].
    unfold jitter.
    pose proof (N.mod_upper_bound rnd (jitterBound p + 1)). lia.
Qed.

End Claims.

(** ** The router *)

Import Router.

Section Reads.

Variable w : World.

Lemma handle_frame {X} (ev : Event X) q :
  is_add_job (call_of ev) = false -> snd (handle w ev q) = q.
Proof. destruct ev; simpl; intros H; try reflexivity. discriminate. Qed.

(** Read-only code leaves the queue as it found it and records no
    enqueue call. *)
Lemma exec_reads_only {A} (c : Prog A) :
  reads_only c ->
  forall q, queue (exec w c q) = q
            /\ Forall (fun x => is_add_job x = false) (trace (exec w c q)).
Proof.
  induction 1 as [a|e|X ev k Hev Hk IH]; intros q; simpl.
  - split; [reflexivity | constructor].
  - split; [reflexivity | constructor].
  - pose proof (handle_frame ev q Hev) as Hq.
    destruct (handle w ev q) as [x q']. simpl in Hq. subst q'. simpl.
    destruct (IH x q) as [E F]. split; [exact E|]. constructor; assumption.
Qed.

Lemma reads_only_bind {A B} (c : Prog A) (f : A -> Prog B) :
  reads_only c -> (forall a, reads_only (f a)) -> reads_only (bind c f).
Proof.
  intros H Hf. induction H as [a|e|X ev k Hev Hk IH]; simpl.
  - apply Hf.
  - constructor.
  - constructor; assumption.
Qed.

Lemma reads_only_try_catch {A} (c : Prog A) (h : Exn -> Prog A) :
  reads_only c -> (forall e, reads_only (h e)) -> reads_only (try_catch c h).
Proof.
  intros H Hh. induction H as [a|e|X ev k Hev Hk IH]; simpl.
  - constructor.
  - apply Hh.
  - constructor; assumption.
Qed.

Lemma reads_only_call {X} (ev : Event X) :
  is_add_job (call_of ev) = false -> reads_only (call ev).
Proof. intros H. constructor; [exact H|]. intros x. constructor. Qed.

Lemma reads_only_await {X} (ev : Event (Result Exn X)) :
  is_add_job (call_of ev) = false -> reads_only (await ev).
Proof. intros H. constructor; [exact H|]. intros [x|e]; constructor. Qed.

Ltac read_only :=
  repeat first
    [ apply reads_only_bind
    | apply reads_only_try_catch
    | apply reads_only_call; reflexivity
    | apply reads_only_await; reflexivity
    | apply ro_ret
    | apply ro_throw
    | intro
    | match goal with
      | |- reads_only (if ?b then _ else _) => destruct b
      end ].

Lemma get_all_reads_only req : reads_only (get_all req).
Proof. unfold get_all, evatuateTransaction, JSON_parse, toISOString. read_only. Qed.

Lemma options_reads_only req : reads_only (options req).
Proof. unfold options, evatuateTransaction, toISOString. read_only. Qed.

Lemma get_one_reads_only req : reads_only (get_one req).
Proof. unfold get_one, evatuateTransaction, JSON_parse, toISOString. read_only. Qed.

(** C7. Every read request (get-all, existence check, read-by-hash)
    leaves the submission queue as it was and makes no enqueue call; it
    asks the ledger through the evaluate operation. *)
Theorem reads_bypass_queue (req : Request) (q : Store) :
  let contract := assetContract (user req) (locals req) in
  (queue (exec w (get_all req) q) = q
   /\ Forall (fun c => is_add_job c = false) (trace (exec w (get_all req) q))
   /\ In (CEvaluate contract "GetAllCertificates" []) (trace (exec w (get_all req) q)))
  /\ (queue (exec w (options req) q) = q
      /\ Forall (fun c => is_add_job c = false) (trace (exec w (options req) q))
      /\ In (CEvaluate contract "CertificateExists" [certificateHash req])
            (trace (exec w (options req) q)))
  /\ (queue (exec w (get_one req) q) = q
      /\ Forall (fun c => is_add_job c = false) (trace (exec w (get_one req) q))
      /\ In (CEvaluate contract "ValidateCertificate" [certificateHash req])
            (trace (exec w (get_one req) q))).
Proof.
  intros contract.
  destruct (exec_reads_only _ (get_all_reads_only req) q) as [E1 F1].
  destruct (exec_reads_only _ (options_reads_only req) q) as [E2 F2].
  destruct (exec_reads_only _ (get_one_reads_only req) q) as [E3 F3].
  repeat split; try assumption; simpl; right; left; reflexivity.
Qed.

(** C10. When the evaluate call of a get-all request returns an empty
    buffer, the answer is 200 with an empty array and [JSON.parse] is not
    called. *)
Theorem get_all_empty_buffer (req : Request) (q : Store) :
  ledger w (assetContract (user req) (locals req)) "GetAllCertificates" [] = Ok [] ->
  result (exec w (get_all req) q) = Ok (json OK (JArr []))
  /\ Forall (fun c => is_parse c = false) (trace (exec w (get_all req) q)).
Proof.
  intros H. simpl. rewrite H. simpl. split; [reflexivity|]. repeat constructor.
Qed.

(** C9. A read-certificate request is answered 404 exactly when the
    evaluate call throws [AssetNotFoundError]; any other failure of the
    evaluate call or of [JSON.parse] gives 500, and success gives 200 with
    the parsed certificate. *)
Theorem get_one_status (req : Request) (q : Store) :
  let asked := ledger w (assetContract (user req) (locals req))
                 "ValidateCertificate" [certificateHash req] in
  exists resp,
    result (exec w (get_one req) q) = Ok resp
    /\ (statusCode resp = NOT_FOUND <-> exists m, asked = Err (AssetNotFoundError m))
    /\ (forall n m, asked = Err (Error n m) ->
        resp = plain INTERNAL_SERVER_ERROR (isoNow w))
    /\ (forall data, asked = Ok data -> parse w (toString data) = None ->
        resp = plain INTERNAL_SERVER_ERROR (isoNow w))
    /\ (forall data c, asked = Ok data -> parse w (toString data) = Some c ->
        resp = json OK c).
Proof.
  intros asked. simpl. fold asked.
  assert (Hcase :
    forall resp : Response,
      (statusCode resp = NOT_FOUND <-> exists m, asked = Err (AssetNotFoundError m)) ->
      match asked with
      | Ok data =>
          match parse w (toString data) with
          | Some c => resp = json OK c
          | None => resp = plain INTERNAL_SERVER_ERROR (isoNow w)
          end
      | Err (AssetNotFoundError _) => True
      | Err (Error _ _) => resp = plain INTERNAL_SERVER_ERROR (isoNow w)
      end ->
      (statusCode resp = NOT_FOUND <-> exists m, asked = Err (AssetNotFoundError m))
      /\ (forall n m, asked = Err (Error n m) ->
          resp = plain INTERNAL_SERVER_ERROR (isoNow w))
      /\ (forall data, asked = Ok data -> parse w (toString data) = None ->
          resp = plain INTERNAL_SERVER_ERROR (isoNow w))
      /\ (forall data c, asked = Ok data -> parse w (toString data) = Some c ->
          resp = json OK c)).
  { intros resp Hiff Hm. split; [exact Hiff|]. split; [|split].
    - intros n m E. rewrite E in Hm. exact Hm.
    - intros data E P. rewrite E, P in Hm. exact Hm.
    - intros data c E P. rewrite E, P in Hm. exact Hm. }
  destruct asked as [data|[m|n m]] eqn:E; simpl.
  - destruct (parse w (toString data)) as [c|] eqn:P; simpl;
      eexists; (split; [reflexivity|]); apply Hcase; try rewrite P; try reflexivity;
      (split; [cbv; discriminate | intros [m Hm]; discriminate]).
  - eexists. split; [reflexivity|]. apply Hcase; [|exact I].
    split; [eauto | reflexivity].
  - eexists. split; [reflexivity|]. apply Hcase; [|reflexivity].
    split; [cbv; discriminate | intros [m' Hm]; discriminate].
Qed.

End Reads.

Section Create.

Variable V : Validators.
Variable w : World.

Lemma runChain_nil b c :
  runChain V b c = []
  <-> forallb (fun k => passes V k (selected c b)) (chChecks c) = true.
Proof.
  unfold runChain. induction (chChecks c) as [|k ks IH]; simpl; [tauto|].
  destruct (passes V k (selected c b)); simpl; [exact IH|].
  split; discriminate.
Qed.

Lemma flat_map_nil {A B} (f : A -> list B) l :
  flat_map f l = [] <-> Forall (fun x => f x = []) l.
Proof.
  induction l as [|x l IH]; simpl.
  - split; [constructor | reflexivity].
  - split.
    + intros H. apply app_eq_nil in H. destruct H as [Hx Hl].
      constructor; [exact Hx | apply IH; exact Hl].
    + intros H. inversion H as [|? ? Hx Hl]; subst.
      rewrite Hx. simpl. apply IH. exact Hl.
Qed.

(** No validation error is reported exactly when every declared check
    passes. *)
Lemma validation_passes req :
  validationResult V req = []
  <-> isObject V (body req) = true
      /\ (forall f, In f requiredFields -> notEmpty V (prop f (body req)) = true)
      /\ (forall f, In f numericFields -> isNumeric V (prop f (body req)) = true).
Proof.
  unfold validationResult. rewrite flat_map_nil.
  unfold certificateChains. split.
  - intros H.
    repeat match goal with
           | H : Forall _ (_ :: _) |- _ =>
               let Hx := fresh "Hx" in
               let Hl := fresh "Hl" in
               inversion H as [|? ? Hx Hl]; clear H; subst;
               apply runChain_nil in Hx; cbn in Hx
           end.
    repeat match goal with
           | H : (_ && _)%bool = true |- _ =>
               let Ha := fresh "Ha" in
               let Hb := fresh "Hb" in
               apply andb_true_iff in H; destruct H as [Ha Hb]
           end.
    split; [assumption|]. split; intros f Hin; simpl in Hin;
      repeat (destruct Hin as [<-|Hin]; [assumption|]); contradiction.
  - intros (Ho & Hne & Hnum).
    repeat (constructor; [apply runChain_nil; cbn|]); [..|constructor];
      rewrite ?andb_true_iff; repeat split;
      first [ exact Ho
            | apply Hne; simpl; tauto
            | apply Hnum; simpl; tauto ].
Qed.

Lemma validation_fails req :
  validationResult V req = [] <-> ~ fails_validation V (body req).
Proof.
  rewrite validation_passes. unfold fails_validation. split.
  - intros (Ho & Hne & Hnum) [H|[(f & Hin & H)|(f & Hin & H)]].
    + congruence.
    + rewrite (Hne f Hin) in H. discriminate.
    + rewrite (Hnum f Hin) in H. discriminate.
  - intros H. split; [|split].
    + destruct (isObject V (body req)) eqn:E; [reflexivity|].
      exfalso. apply H. left. reflexivity.
    + intros f Hin. destruct (notEmpty V (prop f (body req))) eqn:E; [reflexivity|].
      exfalso. apply H. right. left. eauto.
    + intros f Hin. destruct (isNumeric V (prop f (body req))) eqn:E; [reflexivity|].
      exfalso. apply H. right. right. eauto.
Qed.

(** What [post] does with a body that fails validation. *)
Lemma post_invalid req q :
  validationResult V req <> [] ->
  exec w (post V req) q
  = mkOutcome (Ok (validationFailure (isoNow w) (validationResult V req))) q
      [CLog Debug "Create asset request received"; CNow].
Proof.
  intros H. unfold post.
  destruct (validationResult V req) as [|e es]; [congruence|]. reflexivity.
Qed.

(** What [post] does with a body that passes it. *)
Lemma post_valid req q :
  validationResult V req = [] ->
  exec w (post V req) q
  = match addJob w (user req) "IssueCertificate" (issueArgs (body req)) q with
    | (Ok id, q') =>
        mkOutcome (Ok (accepted (isoNow w) id)) q'
          [CLog Debug "Create asset request received";
           CAddJob (user req) "IssueCertificate" (issueArgs (body req)); CNow]
    | (Err _, q') =>
        mkOutcome (Ok (plain INTERNAL_SERVER_ERROR (isoNow w))) q'
          [CLog Debug "Create asset request received";
           CAddJob (user req) "IssueCertificate" (issueArgs (body req));
           CLog ErrorLevel "Error processing create certificate request"; CNow]
    end.
Proof.
  intros H. unfold post. rewrite H. simpl. unfold issueArgs.
  destruct (addJob w (user req) "IssueCertificate" _ q) as [[id|e] q']; reflexivity.
Qed.

(** C8. A create-certificate request whose body fails any declared
    validation is answered 400 with reason VALIDATION_ERROR and nothing is
    enqueued; [addSubmitTransactionJob] is called, and 202 with the job id
    returned, only for a body that passes them all. *)
Theorem post_validation_gate (req : Request) (q : Store) :
  (fails_validation V (body req) ->
   exists resp,
     result (exec w (post V req) q) = Ok resp
     /\ resp = validationFailure (isoNow w) (validationResult V req)
     /\ statusCode resp = BAD_REQUEST
     /\ prop "status" (jsonBody resp) = JStr "Bad Request"
     /\ prop "reason" (jsonBody resp) = JStr "VALIDATION_ERROR"
     /\ queue (exec w (post V req) q) = q
     /\ Forall (fun c => is_add_job c = false) (trace (exec w (post V req) q)))
  /\ ((exists c, In c (trace (exec w (post V req) q)) /\ is_add_job c = true) ->
      ~ fails_validation V (body req))
  /\ (forall resp,
        result (exec w (post V req) q) = Ok resp -> statusCode resp = ACCEPTED ->
        ~ fails_validation V (body req)
        /\ exists id,
             addJob w (user req) "IssueCertificate" (issueArgs (body req)) q
             = (Ok id, queue (exec w (post V req) q))
             /\ resp = accepted (isoNow w) id
             /\ prop "jobId" (jsonBody resp) = JStr id)
  /\ (~ fails_validation V (body req) ->
      In (CAddJob (user req) "IssueCertificate" (issueArgs (body req)))
         (trace (exec w (post V req) q))).
Proof.
  assert (Hd : validationResult V req = [] \/ validationResult V req <> []).
  { destruct (validationResult V req); [left; reflexivity | right; discriminate]. }
  destruct Hd as [Hv|Hv].
  - pose proof (proj1 (validation_fails req) Hv) as Hok.
    rewrite (post_valid req q Hv).
    split; [intros Hf; contradiction|]. split; [intros _; exact Hok|].
    split.
    + intros resp Hr Hs. split; [exact Hok|].
      destruct (addJob w (user req) "IssueCertificate" (issueArgs (body req)) q)
        as [[id|e] q']; simpl in *.
      * exists id. split; [reflexivity|]. injection Hr as <-. split; reflexivity.
      * injection Hr as <-. cbv in Hs. discriminate.
    + intros _.
      destruct (addJob w (user req) "IssueCertificate" (issueArgs (body req)) q)
        as [[id|e] q']; simpl; auto.
  - assert (Hf : fails_validation V (body req)).
    { destruct (isObject V (body req)) eqn:Eo; [|left; exact Eo].
      right.
      destruct (existsb (fun f => negb (notEmpty V (prop f (body req)))) requiredFields)
        eqn:En.
      - left. apply existsb_exists in En. destruct En as (f & Hin & Hn).
        exists f. split; [exact Hin|]. apply negb_true_iff. exact Hn.
      - right.
        destruct (existsb (fun f => negb (isNumeric V (prop f (body req)))) numericFields)
          eqn:Em.
        + apply existsb_exists in Em. destruct Em as (f & Hin & Hn).
          exists f. split; [exact Hin|]. apply negb_true_iff. exact Hn.
        + exfalso. apply Hv. apply validation_passes. split; [exact Eo|].
          split; intros f Hin.
          * destruct (notEmpty V (prop f (body req))) eqn:E; [reflexivity|].
            assert (existsb (fun f => negb (notEmpty V (prop f (body req)))) requiredFields
                    = true) as Hc; [|congruence].
            apply existsb_exists. exists f. rewrite E. auto.
          * destruct (isNumeric V (prop f (body req))) eqn:E; [reflexivity|].
            assert (existsb (fun f => negb (isNumeric V (prop f (body req)))) numericFields
                    = true) as Hc; [|congruence].
            apply existsb_exists. exists f. rewrite E. auto. }
    rewrite (post_invalid req q Hv). simpl.
    split; [intros _; eexists; repeat split; repeat constructor|].
    split; [|split].
    + intros (c & [<-|[<-|[]]] & Hc); discriminate.
    + intros resp [= <-] Hs. cbv in Hs. discriminate.
    + intros Hn. contradiction.
Qed.

End Create.

(** ** The statements at work on concrete inputs *)

Section Samples.

Local Open Scope string_scope.
Local Open Scope list_scope.

Example lifecycle_sample :
  lifecycle 0 (JobStore.empty 0) sampleHistory
  = [Queued; Active; Queued; Active; Completed].
Proof. reflexivity. Qed.

Example exhausted_sample :
  option_map (fun j => (state j, attempts j))
    (find_job 0 (jobs (store (sys_step samplePolicy (conflict 7 9100) sampleLastTry))))
  = Some (Failed, 3).
Proof. reflexivity. Qed.

(** The retry scenario of section 8: a conflict, a requeue with one
    attempt counted and a delay of base * multiplier, then success. *)
Example retry_scenario :
  let s1 := run samplePolicy [sampleEnqueue; AClaim 7 5; conflict 7 10] (init 0) in
  option_map (fun j => (state j, attempts j, notBefore j))
    (find_job 0 (jobs (store s1))) = Some (Queued, 1, 210%N)
  /\ fst (claimNext 100 (store s1)) = None
  /\ option_map jobId (fst (claimNext 210 (store s1))) = Some 0
  /\ status 0 (store (run samplePolicy
                        [AClaim 8 300; AResolve 8 900 0 (SubmitOk "tx-9" [])] s1))
     = Ok (mkStatus Completed 1 (Some ("tx-9", [])) None).
Proof. repeat split. Qed.

Example backoff_sample :
  map (backoffDelay samplePolicy) [0; 1; 2; 3; 4] = [100; 200; 400; 800; 1000]%N.
Proof. reflexivity. Qed.

Example post_accepts_sample :
  option_map statusCode
    (match result (exec sampleWorld
                     (post sampleValidators (sampleRequest sampleCertificate ""))
                     (JobStore.empty 0)) with
     | Ok r => Some r
     | Err _ => None
     end) = Some 202.
Proof. reflexivity. Qed.

Example post_rejects_sample :
  let o := exec sampleWorld
             (post sampleValidators
                (sampleRequest (JObj [("CertificateHash", JStr "abc123")]) ""))
             (JobStore.empty 0) in
  queue o = JobStore.empty 0
  /\ match result o with
     | Ok r => statusCode r = 400 /\ prop "reason" (jsonBody r) = JStr "VALIDATION_ERROR"
     | Err _ => False
     end.
Proof. split; [reflexivity | split; reflexivity]. Qed.

Example get_one_samples :
  map (fun h => match result (exec sampleWorld (get_one (sampleRequest JNull h))
                                (JobStore.empty 0)) with
                | Ok r => statusCode r
                | Err _ => 0
                end)
      ["abc123"; "missing"]
  = [200; 404]
  /\ match result (exec sampleWorld
                     (get_one (mkRequest "Org3MSP" JNull "abc123" []))
                     (JobStore.empty 0)) with
     | Ok r => statusCode r = 500
     | Err _ => False
     end.
Proof. split; reflexivity. Qed.



Lemma backoff_monotone_capped_witness :
  1 <= 2 /\ 2 < maximumAttempts flatPolicy
  /\ ((retryDelay flatPolicy 1 <= retryDelay flatPolicy 2)%N
      /\ (retryDelay flatPolicy 1 <= delayCap flatPolicy)%N
      /\ (retryDelay flatPolicy 2 <= delayCap flatPolicy)%N
      /\ (forall margin sys w id j now rnd k msg,
            reachable flatPolicy margin sys -> held_by w (claims sys) = Some id ->
            find_job id (jobs (store sys)) = Some j ->
            retryable flatPolicy k = true -> attempts j < ceiling flatPolicy k ->
            exists j',
              find_job id
                (jobs (store (sys_step flatPolicy
                                (AResolve w now rnd (SubmitErr k msg)) sys)))
              = Some j'
              /\ state j' = Queued
              /\ attempts j' = S (attempts j)
              /\ notBefore j'
                 = (now + (N.min (baseDelay flatPolicy
                                  * multiplier flatPolicy ^ N.of_nat (attempts j'))
                                 (delayCap flatPolicy)
                           + jitter flatPolicy rnd))%N
              /\ (jitter flatPolicy rnd <= jitterBound flatPolicy)%N)).
Proof.
  assert (H1 : 1 <= 2) by lia.
  assert (H2 : 2 < maximumAttempts flatPolicy) by (simpl; lia).
  split; [exact H1|]. split; [exact H2|].
  exact (backoff_monotone_capped flatPolicy 1 2 H1 H2).
Defined.

Lemma complete_idempotent_witness :
  find_job 0 (jobs sampleActive) = Some sampleJob /\ state sampleJob = Active
  /\ ((exists s1, completeWithResult 10 0 "tx-1" [] sampleActive = Ok s1
               /\ completeWithResult 20 0 "tx-1" [] s1 = Ok s1
               /\ stateOf 0 s1 = Some Completed)
      /\ (exists s1, completeWithError 10 0 rejected sampleActive = Ok s1
                  /\ completeWithError 20 0 rejected s1 = Ok s1
                  /\ stateOf 0 s1 = Some Failed)).
Proof.
  split; [reflexivity|]. split; [reflexivity|].
  exact (complete_idempotent sampleActive 0 sampleJob 10 20 "tx-1" [] rejected
           eq_refl eq_refl).
Defined.

Lemma get_all_empty_buffer_witness :
  ledger sampleWorld
    (assetContract (user (sampleRequest JNull "")) (locals (sampleRequest JNull "")))
    "GetAllCertificates" [] = Ok []
  /\ (result (exec sampleWorld (get_all (sampleRequest JNull "")) (JobStore.empty 0))
      = Ok (json OK (JArr []))
      /\ Forall (fun c => is_parse c = false)
           (trace (exec sampleWorld (get_all (sampleRequest JNull "")) (JobStore.empty 0)))).
Proof.
  split; [reflexivity|].
  exact (get_all_empty_buffer sampleWorld (sampleRequest JNull "") (JobStore.empty 0)
           eq_refl).
Defined.

End Samples.

(** * Further properties of the router *)

Import Calls.

Section Handlers.

Local Open Scope string_scope.
Local Open Scope list_scope.

Variable V : Validators.
Variable w : World.

(** What each read handler does, case by case. *)
Lemma get_all_run req q :
  exec w (get_all req) q
  = let c := assetContract (user req) (locals req) in
    let start := [CLog Debug "Get all assets request received";
                  CEvaluate c "GetAllCertificates" []] in
    let failure := [CLog ErrorLevel "Error processing get all assets request"; CNow] in
    match ledger w c "GetAllCertificates" [] with
    | Err _ => mkOutcome (Ok (plain INTERNAL_SERVER_ERROR (isoNow w))) q (start ++ failure)
    | Ok [] => mkOutcome (Ok (json OK (JArr []))) q start
    | Ok (b :: bs) =>
        match parse w (toString (b :: bs)) with
        | Some v => mkOutcome (Ok (json OK v)) q (start ++ [CParse (toString (b :: bs))])
        | None =>
            mkOutcome (Ok (plain INTERNAL_SERVER_ERROR (isoNow w))) q
              (start ++ CParse (toString (b :: bs)) :: failure)
        end
    end.
Proof.
  simpl.
  destruct (ledger w (assetContract (user req) (locals req)) "GetAllCertificates" [])
    as [[|b bs]|e]; simpl; try reflexivity.
  destruct (parse w _); reflexivity.
Qed.

Lemma options_run req q :
  exec w (options req) q
  = let c := assetContract (user req) (locals req) in
    let start := [CLog Debug "Certificate options request received";
                  CEvaluate c "CertificateExists" [certificateHash req]] in
    match ledger w c "CertificateExists" [certificateHash req] with
    | Err _ =>
        mkOutcome (Ok (plain INTERNAL_SERVER_ERROR (isoNow w))) q
          (start ++ [CLog ErrorLevel "Error processing certificate options request"; CNow])
    | Ok data =>
        if String.eqb (toString data) "true" then
          mkOutcome
            (Ok (mkResponse OK [("Allow", "DELETE,GET,OPTIONS,PATCH,PUT")]
                   (JObj [("status", JStr "OK"); ("timestamp", JStr (isoNow w))])))
            q (start ++ [CNow])
        else mkOutcome (Ok (plain NOT_FOUND (isoNow w))) q (start ++ [CNow])
    end.
Proof.
  simpl.
  destruct (ledger w (assetContract (user req) (locals req)) "CertificateExists"
              [certificateHash req]) as [data|e]; simpl; try reflexivity.
  destruct (String.eqb (toString data) "true"); reflexivity.
Qed.

Lemma get_one_run req q :
  exec w (get_one req) q
  = let c := assetContract (user req) (locals req) in
    let start := [CLog Debug "Read certificate request received";
                  CEvaluate c "ValidateCertificate" [certificateHash req]] in
    let failure := [CLog ErrorLevel "Error processing read certificate request"; CNow] in
    match ledger w c "ValidateCertificate" [certificateHash req] with
    | Err e =>
        mkOutcome
          (Ok (plain (if instanceof_AssetNotFoundError e then NOT_FOUND
                      else INTERNAL_SERVER_ERROR) (isoNow w)))
          q (start ++ failure)
    | Ok data =>
        match parse w (toString data) with
        | Some v => mkOutcome (Ok (json OK v)) q (start ++ [CParse (toString data)])
        | None =>
            mkOutcome (Ok (plain INTERNAL_SERVER_ERROR (isoNow w))) q
              (start ++ CParse (toString data) :: failure)
        end
    end.
Proof.
  simpl.
  destruct (ledger w (assetContract (user req) (locals req)) "ValidateCertificate"
              [certificateHash req]) as [data|[m|n m]]; simpl; try reflexivity.
  destruct (parse w _); reflexivity.
Qed.

Lemma post_run req q :
  exec w (post V req) q
  = let start := CLog Debug "Create asset request received" in
    let asked := CAddJob (user req) "IssueCertificate" (issueArgs (body req)) in
    match validationResult V req with
    | _ :: _ =>
        mkOutcome (Ok (validationFailure (isoNow w) (validationResult V req))) q
          [start; CNow]
    | [] =>
        match addJob w (user req) "IssueCertificate" (issueArgs (body req)) q with
        | (Ok id, q') => mkOutcome (Ok (accepted (isoNow w) id)) q' [start; asked; CNow]
        | (Err _, q') =>
            mkOutcome (Ok (plain INTERNAL_SERVER_ERROR (isoNow w))) q'
              [start; asked;
               CLog ErrorLevel "Error processing create certificate request"; CNow]
        end
    end.
Proof.
  destruct (validationResult V req) as [|e es] eqn:E.
  - exact (post_valid V w req q E).
  - rewrite <- E. apply post_invalid. congruence.
Qed.

End Handlers.

Section Answers.

Local Open Scope string_scope.
Local Open Scope list_scope.

Variable V : Validators.
Variable w : World.

(** X1. Whatever the ledger, [JSON.parse] and the queue do, no handler
    lets an exception escape: each one answers, and with a status code of
    its own short list. *)
Theorem handlers_always_answer (req : Request) (q : Store) :
  (exists r, result (exec w (get_all req) q) = Ok r
             /\ In (statusCode r) [OK; INTERNAL_SERVER_ERROR])
  /\ (exists r, result (exec w (post V req) q) = Ok r
                /\ In (statusCode r) [ACCEPTED; BAD_REQUEST; INTERNAL_SERVER_ERROR])
  /\ (exists r, result (exec w (options req) q) = Ok r
                /\ In (statusCode r) [OK; NOT_FOUND; INTERNAL_SERVER_ERROR])
  /\ (exists r, result (exec w (get_one req) q) = Ok r
                /\ In (statusCode r) [OK; NOT_FOUND; INTERNAL_SERVER_ERROR]).
Proof.
  rewrite get_all_run, (post_run V), options_run, get_one_run. cbv zeta.
  split; [|split; [|split]].
  - destruct (ledger w _ "GetAllCertificates" []) as [[|b bs]|e];
      [| destruct (parse w _) |]; eexists; (split; [reflexivity|]); simpl; tauto.
  - destruct (validationResult V req);
      [destruct (addJob w _ _ _ q) as [[id|e] q']|];
      eexists; (split; [reflexivity|]); simpl; tauto.
  - destruct (ledger w _ "CertificateExists" _) as [data|e];
      [destruct (String.eqb (toString data) "true")|];
      eexists; (split; [reflexivity|]); simpl; tauto.
  - destruct (ledger w _ "ValidateCertificate" _) as [data|[m|n m]];
      [destruct (parse w _)| |]; eexists; (split; [reflexivity|]); simpl; tauto.
Qed.

(** X2. Every answer with a 4xx or 5xx code, from any of the four
    handlers, has the same shape: [status] is the reason phrase of its
    code, [timestamp] is the clock's reading, and no header is set. *)
Theorem error_answers_uniform (req : Request) (q : Store) (h : Prog Response)
    (r : Response) :
  In h [get_all req; post V req; options req; get_one req] ->
  result (exec w h q) = Ok r -> 400 <= statusCode r ->
  prop "status" (jsonBody r) = JStr (getReasonPhrase (statusCode r))
  /\ prop "timestamp" (jsonBody r) = JStr (isoNow w)
  /\ headers r = [].
Proof.
  intros Hin. simpl in Hin.
  destruct Hin as [<-|[<-|[<-|[<-|[]]]]].
  - rewrite get_all_run. cbv zeta.
    destruct (ledger w _ "GetAllCertificates" []) as [[|b bs]|e];
      [| destruct (parse w _) |]; simpl; intros [= <-] Hc;
      try (cbv in Hc; lia); repeat split.
  - rewrite (post_run V). cbv zeta.
    destruct (validationResult V req);
      [destruct (addJob w _ _ _ q) as [[id|e] q']|];
      simpl; intros [= <-] Hc; try (cbv in Hc; lia); repeat split.
  - rewrite options_run. cbv zeta.
    destruct (ledger w _ "CertificateExists" _) as [data|e];
      [destruct (String.eqb (toString data) "true")|];
      simpl; intros [= <-] Hc; try (cbv in Hc; lia); repeat split.
  - rewrite get_one_run. cbv zeta.
    destruct (ledger w _ "ValidateCertificate" _) as [data|[m|n m]];
      [destruct (parse w _)| |]; simpl; intros [= <-] Hc;
      try (cbv in Hc; lia); repeat split.
Qed.

(** X3. The existence check answers 200, with the [Allow] header, exactly
    when the evaluate call returns the text [true]; 404 exactly when it
    returns anything else; and 500 exactly when it throws, also when what
    it throws is an [AssetNotFoundError].  It never calls [JSON.parse]. *)
Theorem options_answers (req : Request) (q : Store) :
  let asked := ledger w (assetContract (user req) (locals req))
                 "CertificateExists" [certificateHash req] in
  exists r,
    result (exec w (options req) q) = Ok r
    /\ (statusCode r = OK <-> exists data, asked = Ok data /\ toString data = "true")
    /\ (statusCode r = NOT_FOUND
        <-> exists data, asked = Ok data /\ toString data <> "true")
    /\ (statusCode r = INTERNAL_SERVER_ERROR <-> exists e, asked = Err e)
    /\ (headers r = [("Allow", "DELETE,GET,OPTIONS,PATCH,PUT")] <-> statusCode r = OK)
    /\ Forall (fun c => is_parse c = false) (trace (exec w (options req) q)).
Proof.
  intros asked. rewrite options_run. cbv zeta. fold asked.
  destruct asked as [data|e] eqn:E.
  - destruct (String.eqb_spec (toString data) "true") as [Ht|Hf].
    + eexists. split; [reflexivity|]. simpl. repeat split; try discriminate;
        try (intros; reflexivity); try (repeat constructor).
      * intros _. exists data. auto.
      * intros (d & [= <-] & Hd). contradiction.
      * intros (e & He). discriminate.
    + eexists. split; [reflexivity|]. simpl. repeat split; try discriminate;
        try (intros; reflexivity); try (repeat constructor).
      * intros (d & [= <-] & Hd). contradiction.
      * intros _. exists data. auto.
      * intros (e & He). discriminate.
  - eexists. split; [reflexivity|]. simpl. repeat split; try discriminate;
      try (intros; reflexivity); try (repeat constructor).
    + intros (d & Hd & _). discriminate.
    + intros (d & Hd & _). discriminate.
    + intros _. exists e. reflexivity.
Qed.

(** X4. When the evaluate call of a get-all request returns a buffer that
    is not empty, [JSON.parse] is called once, on its text: the answer is
    200 with the parsed value, or 500 when parsing fails.  When the
    evaluate call throws the answer is 500 whatever was thrown, and
    nothing is parsed.  The answer is never 404. *)
Theorem get_all_answers (req : Request) (q : Store) :
  let asked := ledger w (assetContract (user req) (locals req))
                 "GetAllCertificates" [] in
  exists r,
    result (exec w (get_all req) q) = Ok r
    /\ statusCode r <> NOT_FOUND
    /\ (forall e, asked = Err e ->
        r = plain INTERNAL_SERVER_ERROR (isoNow w)
        /\ filter is_parse (trace (exec w (get_all req) q)) = [])
    /\ (forall data, asked = Ok data -> data <> [] ->
        filter is_parse (trace (exec w (get_all req) q)) = [CParse (toString data)]
        /\ r = match parse w (toString data) with
               | Some v => json OK v
               | None => plain INTERNAL_SERVER_ERROR (isoNow w)
               end).
Proof.
  intros asked. rewrite get_all_run. cbv zeta. fold asked.
  destruct asked as [[|b bs]|e] eqn:E.
  - eexists. split; [reflexivity|]. split; [cbv; discriminate|].
    split; [discriminate|]. intros data [= <-] Hne. congruence.
  - destruct (parse w (toString (b :: bs))) as [v|] eqn:P.
    + eexists. split; [reflexivity|]. split; [cbv; discriminate|].
      split; [discriminate|]. intros data [= <-] _. rewrite P. split; reflexivity.
    + eexists. split; [reflexivity|]. split; [cbv; discriminate|].
      split; [discriminate|]. intros data [= <-] _. rewrite P. split; reflexivity.
  - eexists. split; [reflexivity|]. split; [cbv; discriminate|].
    split; [|discriminate]. intros e' _. split; reflexivity.
Qed.

(** X5. When the body passes validation and [addSubmitTransactionJob]
    throws, the answer is 500; the enqueue call was made once and is not
    repeated, and the queue is left as that call left it. *)
Theorem post_queue_failure (req : Request) (q q' : Store) (e : Exn) :
  validationResult V req = [] ->
  addJob w (user req) "IssueCertificate" (issueArgs (body req)) q = (Err e, q') ->
  result (exec w (post V req) q) = Ok (plain INTERNAL_SERVER_ERROR (isoNow w))
  /\ queue (exec w (post V req) q) = q'
  /\ filter is_add_job (trace (exec w (post V req) q))
     = [CAddJob (user req) "IssueCertificate" (issueArgs (body req))].
Proof.
  intros Hv Ha. rewrite (post_run V). cbv zeta. rewrite Hv, Ha.
  repeat split.
Qed.

(** X6. A create request never asks the ledger and never parses: its only
    calls outside the router are the log, the clock and at most one
    enqueue, made for the caller's MSP id with the function
    [IssueCertificate] and the nine fields of the body in declared order. *)
Theorem post_call_discipline (req : Request) (q : Store) :
  Forall (fun c => is_evaluate c = false /\ is_parse c = false)
         (trace (exec w (post V req) q))
  /\ (filter is_add_job (trace (exec w (post V req) q)) = []
      \/ filter is_add_job (trace (exec w (post V req) q))
         = [CAddJob (user req) "IssueCertificate"
              [prop "CertificateHash" (body req); prop "CertificateDate" (body req);
               prop "StudentId" (body req); prop "StudentName" (body req);
               prop "StudentCPF" (body req); prop "CourseName" (body req);
               prop "CourseHours" (body req); prop "CourseCompletionDate" (body req);
               prop "InstitutionName" (body req)]]).
Proof.
  rewrite (post_run V). cbv zeta.
  destruct (validationResult V req);
    [destruct (addJob w _ _ _ q) as [[id|e] q']|]; simpl;
    (split; [repeat constructor | auto]).
Qed.

(** X7. Each read handler makes exactly one evaluate call, for the
    contract of the caller's MSP id, and hands [JSON.parse] nothing but the
    text of what that call returned. *)
Theorem reads_call_discipline (req : Request) (q : Store) :
  let c := assetContract (user req) (locals req) in
  (filter is_evaluate (trace (exec w (get_all req) q))
     = [CEvaluate c "GetAllCertificates" []]
   /\ forall t, In (CParse t) (trace (exec w (get_all req) q)) ->
        exists data, ledger w c "GetAllCertificates" [] = Ok data
                     /\ t = toString data)
  /\ (filter is_evaluate (trace (exec w (options req) q))
        = [CEvaluate c "CertificateExists" [certificateHash req]]
      /\ forall t, ~ In (CParse t) (trace (exec w (options req) q)))
  /\ (filter is_evaluate (trace (exec w (get_one req) q))
        = [CEvaluate c "ValidateCertificate" [certificateHash req]]
      /\ forall t, In (CParse t) (trace (exec w (get_one req) q)) ->
           exists data, ledger w c "ValidateCertificate" [certificateHash req] = Ok data
                        /\ t = toString data).
Proof.
  intros c. rewrite get_all_run, options_run, get_one_run. cbv zeta. fold c.
  split; [|split].
  - destruct (ledger w c "GetAllCertificates" []) as [[|b bs]|e] eqn:E;
      [| destruct (parse w _) |]; simpl; (split; [reflexivity|]);
      intros t Hin;
      repeat (destruct Hin as [Hin|Hin]; try discriminate Hin);
      try contradiction; injection Hin as <-; eauto.
  - destruct (ledger w c "CertificateExists" _) as [data|e];
      [destruct (String.eqb (toString data) "true")|]; simpl;
      (split; [reflexivity|]); intros t Hin;
      repeat (destruct Hin as [Hin|Hin]; try discriminate Hin); contradiction.
  - destruct (ledger w c "ValidateCertificate" _) as [data|[m|n m]] eqn:E;
      [destruct (parse w _)| |]; simpl; (split; [reflexivity|]);
      intros t Hin;
      repeat (destruct Hin as [Hin|Hin]; try discriminate Hin);
      try contradiction; injection Hin as <-; eauto.
Qed.

End Answers.


(** * The [.env] generator *)

Import EnvScript.

Section Env.

Local Open Scope list_scope.

Lemma tr_d_clean l : Forall (fun c => c <> CR /\ c <> LF) (tr_d l).
Proof.
  apply Forall_forall. intros c Hin. apply filter_In in Hin.
  destruct Hin as [_ H]. apply andb_true_iff in H. destruct H as [H1 H2].
  apply negb_true_iff in H1, H2. split; apply Ascii.eqb_neq; assumption.
Qed.

Lemma tr_d_cons c l :
  tr_d (c :: l)
  = if negb (Ascii.eqb c CR) && negb (Ascii.eqb c LF) then c :: tr_d l else tr_d l.
Proof. reflexivity. Qed.

Lemma drop_nul_cons c l :
  drop_nul (c :: l) = if negb (Ascii.eqb c NUL) then c :: drop_nul l else drop_nul l.
Proof. reflexivity. Qed.

(** Text without newlines has none to strip. *)
Lemma strip_newlines_clean l :
  Forall (fun c => c <> LF) l -> strip_newlines l = l.
Proof.
  induction 1 as [|c l Hc Hl IH]; [reflexivity|].
  cbn [strip_newlines]. rewrite IH.
  destruct l as [|d r]; [|reflexivity].
  apply Ascii.eqb_neq in Hc. rewrite Hc. reflexivity.
Qed.

(** The command substitution only takes the NUL bytes away from what
    [tr] leaves. *)
Lemma env_value_eq file : env_value file = drop_nul (tr_d (sed_eol false file)).
Proof.
  unfold env_value, command_substitution. apply strip_newlines_clean.
  apply Forall_forall. intros c Hin. apply filter_In in Hin. destruct Hin as [Hin _].
  pose proof (tr_d_clean (sed_eol false file)) as H.
  rewrite Forall_forall in H. apply (H c Hin).
Qed.

Lemma sed_eol_pending_nonempty l : drop_nul (tr_d (sed_eol true l)) <> [].
Proof.
  induction l as [|c l IH]; cbn [sed_eol]; [discriminate|].
  destruct (Ascii.eqb c LF); [discriminate|].
  rewrite tr_d_cons.
  destruct (negb (Ascii.eqb c CR) && negb (Ascii.eqb c LF)); [|exact IH].
  rewrite drop_nul_cons. destruct (negb (Ascii.eqb c NUL)); [discriminate | exact IH].
Qed.

(** X9. The value written for a file never contains a carriage return or
    a newline, so it stays on one line of [.env]; and it is empty exactly
    when the file is empty. *)
Theorem env_value_one_line (file : list ascii) :
  Forall (fun c => c <> CR /\ c <> LF) (env_value file)
  /\ (env_value file = [] <-> file = []).
Proof.
  rewrite env_value_eq. split.
  - apply Forall_forall. intros c Hin. apply filter_In in Hin. destruct Hin as [Hin _].
    pose proof (tr_d_clean (sed_eol false file)) as H.
    rewrite Forall_forall in H. apply (H c Hin).
  - split; [|intros ->; reflexivity].
    destruct file as [|c r]; [reflexivity|]. cbn [sed_eol].
    destruct (Ascii.eqb c LF); [discriminate|].
    rewrite tr_d_cons. intros H.
    destruct (negb (Ascii.eqb c CR) && negb (Ascii.eqb c LF)).
    + rewrite drop_nul_cons in H. destruct (negb (Ascii.eqb c NUL)); [discriminate|].
      destruct (sed_eol_pending_nonempty r H).
    + destruct (sed_eol_pending_nonempty r H).
Qed.

Lemma crlf_same p l : tr_d (sed_eol p (to_crlf l)) = tr_d (sed_eol p l).
Proof.
  revert p. induction l as [|c l IH]; intros p; simpl; [reflexivity|].
  destruct (Ascii.eqb c LF) eqn:E; simpl.
  - do 2 f_equal. apply IH.
  - rewrite ?E, !tr_d_cons, IH, ?E. reflexivity.
Qed.

(** X10. DOS line ends make no difference: a file whose lines end in
    carriage return and newline gives the same value as the file with
    plain newlines. *)
Theorem env_value_crlf (file : list ascii) :
  env_value (to_crlf file) = env_value file.
Proof. rewrite !env_value_eq, crlf_same. reflexivity. Qed.

Lemma final_newline_same p g c :
  c <> LF -> tr_d (sed_eol p (g ++ [c; LF])) = tr_d (sed_eol p (g ++ [c])).
Proof.
  intros Hc. apply Ascii.eqb_neq in Hc.
  revert p. induction g as [|h g IH]; intros p; cbn [app sed_eol].
  - rewrite Hc. rewrite !tr_d_cons.
    destruct (negb (Ascii.eqb c CR) && negb (Ascii.eqb c LF)); reflexivity.
  - destruct (Ascii.eqb h LF); rewrite !tr_d_cons, IH; reflexivity.
Qed.

(** X11. A missing final newline makes no difference: a file whose last
    line is not ended by a newline gives the same value as the file with
    that newline added. *)
Theorem env_value_final_newline (g : list ascii) (c : ascii) :
  c <> LF -> env_value (g ++ [c; LF]) = env_value (g ++ [c]).
Proof.
  intros Hc. rewrite !env_value_eq, (final_newline_same false g c Hc). reflexivity.
Qed.

Lemma plain_char_parts c :
  plain_char c = true ->
  Ascii.eqb c CR = false /\ Ascii.eqb c backslash = false /\ Ascii.eqb c NUL = false.
Proof.
  unfold plain_char. intros H.
  apply andb_true_iff in H. destruct H as [H H3].
  apply andb_true_iff in H. destruct H as [H1 H2].
  apply negb_true_iff in H1, H2, H3. auto.
Qed.

(** On a file without NUL bytes the command substitution changes
    nothing. *)
Lemma drop_nul_plain p l :
  forallb plain_char l = true ->
  drop_nul (tr_d (sed_eol p l)) = tr_d (sed_eol p l).
Proof.
  revert p. induction l as [|c l IH]; intros p Hp.
  - destruct p; reflexivity.
  - simpl in Hp. apply andb_true_iff in Hp. destruct Hp as [Hc Hl].
    destruct (plain_char_parts c Hc) as (_ & _ & Hn).
    cbn [sed_eol]. destruct (Ascii.eqb c LF).
    + change (drop_nul (backslash :: letter_n :: tr_d (sed_eol false l))
              = backslash :: letter_n :: tr_d (sed_eol false l)).
      rewrite !drop_nul_cons. cbn [negb]. rewrite IH by exact Hl. reflexivity.
    + rewrite tr_d_cons.
      destruct (negb (Ascii.eqb c CR) && negb (Ascii.eqb c LF)); [|apply IH; exact Hl].
      rewrite drop_nul_cons, Hn. cbn [negb]. rewrite IH by exact Hl. reflexivity.
Qed.

Lemma unescape_cons c l :
  Ascii.eqb c backslash = false -> unescape (c :: l) = c :: unescape l.
Proof.
  intros H. destruct l as [|d l]; [reflexivity|].
  cbn [unescape]. rewrite H. reflexivity.
Qed.

Lemma unescape_sed p l :
  forallb plain_char l = true ->
  unescape (tr_d (sed_eol p l))
  = l ++ (if fold_left (fun _ c => negb (Ascii.eqb c LF)) l p then [LF] else []).
Proof.
  revert p. induction l as [|c l IH]; intros p Hp.
  - destruct p; reflexivity.
  - simpl in Hp. apply andb_true_iff in Hp. destruct Hp as [Hc Hl].
    destruct (plain_char_parts c Hc) as (Hcr & Hbs & _).
    cbn [sed_eol fold_left app].
    destruct (Ascii.eqb c LF) eqn:E.
    + apply Ascii.eqb_eq in E. subst c.
      change (unescape (backslash :: letter_n :: tr_d (sed_eol false l))
              = LF :: l ++ (if fold_left (fun _ c => negb (Ascii.eqb c LF)) l false
                            then [LF] else [])).
      cbn [unescape]. change (Ascii.eqb backslash backslash && Ascii.eqb letter_n letter_n)
        with true. cbv iota. f_equal. apply IH. exact Hl.
    + rewrite tr_d_cons, Hcr, E. cbn [negb andb].
      rewrite (unescape_cons _ _ Hbs). f_equal. apply IH. exact Hl.
Qed.

Lemma fold_pending_end g p :
  fold_left (fun _ c => negb (Ascii.eqb c LF)) (g ++ [LF]) p = false.
Proof. rewrite fold_left_app. reflexivity. Qed.

(** A well-formed file can be read back from its value. *)
Lemma env_value_read_back g :
  forallb plain_char g = true -> unescape (env_value (g ++ [LF])) = g ++ [LF].
Proof.
  intros Hg.
  assert (Hp : forallb plain_char (g ++ [LF]) = true).
  { rewrite forallb_app, Hg. reflexivity. }
  rewrite env_value_eq, (drop_nul_plain false _ Hp), (unescape_sed false _ Hp).
  rewrite fold_pending_end. apply app_nil_r.
Qed.

(** X12. Nothing of a well-formed file is lost: two different files
    without carriage returns, backslashes or NUL bytes, each ending in a
    newline, are written as different values. *)
Theorem env_value_injective (g1 g2 : list ascii) :
  forallb plain_char g1 = true -> forallb plain_char g2 = true ->
  g1 <> g2 ->
  env_value (g1 ++ [LF]) <> env_value (g2 ++ [LF]).
Proof.
  intros H1 H2 Hne E. apply Hne.
  apply (f_equal unescape) in E.
  rewrite (env_value_read_back g1 H1), (env_value_read_back g2 H2) in E.
  apply app_inv_tail in E. exact E.
Qed.

End Env.

Section MoreSamples.

Local Open Scope string_scope.
Local Open Scope list_scope.

Example options_samples :
  match result (exec sampleWorld (options (sampleRequest JNull "abc123"))
                  (JobStore.empty 0)) with
  | Ok r => statusCode r = 200 /\ headers r = [("Allow", "DELETE,GET,OPTIONS,PATCH,PUT")]
  | Err _ => False
  end
  /\ match result (exec sampleWorld (options (mkRequest "Org3MSP" JNull "abc123" []))
                     (JobStore.empty 0)) with
     | Ok r => statusCode r = 500
     | Err _ => False
     end.
Proof. repeat split. Qed.

Example validation_sample :
  map veParam
    (validationResult sampleValidators
       (sampleRequest (JObj [("CertificateHash", JStr "abc123");
                             ("StudentId", JStr "seven")]) ""))
  = ["CertificateDate"; "StudentId"; "StudentName"; "StudentCPF"; "CourseName";
     "CourseHours"; "CourseHours"; "CourseCompletionDate"; "InstitutionName"].
Proof. reflexivity. Qed.

Example env_value_sample :
  string_of_list_ascii (env_value samplePem)
  = "-----BEGIN CERTIFICATE-----\nMIIB\n-----END CERTIFICATE-----\n"
  /\ env_value (to_crlf samplePem) = env_value samplePem.
Proof. split; vm_compute; reflexivity. Qed.

Example env_value_drops_nul :
  env_value ["a"%char; NUL; "b"%char; LF] = env_value ["a"%char; "b"%char; LF].
Proof. vm_compute. reflexivity. Qed.

Lemma error_answers_uniform_witness :
  In (get_one (sampleRequest JNull "missing"))
     [get_all (sampleRequest JNull "missing");
      post sampleValidators (sampleRequest JNull "missing");
      options (sampleRequest JNull "missing");
      get_one (sampleRequest JNull "missing")]
  /\ result (exec sampleWorld (get_one (sampleRequest JNull "missing"))
               (JobStore.empty 0))
     = Ok (plain NOT_FOUND (isoNow sampleWorld))
  /\ 400 <= statusCode (plain NOT_FOUND (isoNow sampleWorld))
  /\ (prop "status" (jsonBody (plain NOT_FOUND (isoNow sampleWorld)))
      = JStr (getReasonPhrase (statusCode (plain NOT_FOUND (isoNow sampleWorld))))
      /\ prop "timestamp" (jsonBody (plain NOT_FOUND (isoNow sampleWorld)))
         = JStr (isoNow sampleWorld)
      /\ headers (plain NOT_FOUND (isoNow sampleWorld)) = []).
Proof.
  assert (H1 : In (get_one (sampleRequest JNull "missing"))
                  [get_all (sampleRequest JNull "missing");
                   post sampleValidators (sampleRequest JNull "missing");
                   options (sampleRequest JNull "missing");
                   get_one (sampleRequest JNull "missing")]).
  { right. right. right. left. reflexivity. }
  assert (H2 : result (exec sampleWorld (get_one (sampleRequest JNull "missing"))
                         (JobStore.empty 0))
               = Ok (plain NOT_FOUND (isoNow sampleWorld))) by reflexivity.
  assert (H3 : 400 <= statusCode (plain NOT_FOUND (isoNow sampleWorld))).
  { simpl. unfold NOT_FOUND. lia. }
  split; [exact H1|]. split; [exact H2|]. split; [exact H3|].
  exact (error_answers_uniform sampleValidators sampleWorld
           (sampleRequest JNull "missing") (JobStore.empty 0) _ _ H1 H2 H3).
Defined.

Lemma post_queue_failure_witness :
  validationResult sampleValidators (sampleRequest sampleCertificate "") = []
  /\ addJob downWorld (user (sampleRequest sampleCertificate "")) "IssueCertificate"
       (issueArgs (body (sampleRequest sampleCertificate ""))) (JobStore.empty 0)
     = (Err (Error "StoreUnavailable" "submission queue unreachable"), JobStore.empty 0)
  /\ (result (exec downWorld (post sampleValidators (sampleRequest sampleCertificate ""))
                (JobStore.empty 0))
      = Ok (plain INTERNAL_SERVER_ERROR (isoNow downWorld))
      /\ queue (exec downWorld (post sampleValidators (sampleRequest sampleCertificate ""))
                  (JobStore.empty 0))
         = JobStore.empty 0
      /\ filter is_add_job
           (trace (exec downWorld (post sampleValidators (sampleRequest sampleCertificate ""))
                     (JobStore.empty 0)))
         = [CAddJob (user (sampleRequest sampleCertificate "")) "IssueCertificate"
              (issueArgs (body (sampleRequest sampleCertificate "")))]).
Proof.
  split; [reflexivity|]. split; [reflexivity|].
  exact (post_queue_failure sampleValidators downWorld
           (sampleRequest sampleCertificate "") (JobStore.empty 0) (JobStore.empty 0)
           (Error "StoreUnavailable" "submission queue unreachable") eq_refl eq_refl).
Defined.

Lemma env_value_final_newline_witness :
  "E"%char <> LF
  /\ env_value (list_ascii_of_string "-----END" ++ ["E"%char; LF])
     = env_value (list_ascii_of_string "-----END" ++ ["E"%char]).
Proof.
  assert (H : "E"%char <> LF) by discriminate.
  split; [exact H|].
  exact (env_value_final_newline (list_ascii_of_string "-----END") "E"%char H).
Defined.

Lemma env_value_injective_witness :
  forallb plain_char (list_ascii_of_string "MIIB") = true
  /\ forallb plain_char (list_ascii_of_string "MIIC") = true
  /\ list_ascii_of_string "MIIB" <> list_ascii_of_string "MIIC"
  /\ env_value (list_ascii_of_string "MIIB" ++ [LF])
     <> env_value (list_ascii_of_string "MIIC" ++ [LF]).
Proof.
  assert (H : list_ascii_of_string "MIIB" <> list_ascii_of_string "MIIC")
    by discriminate.
  split; [reflexivity|]. split; [reflexivity|]. split; [exact H|].
  exact (env_value_injective (list_ascii_of_string "MIIB") (list_ascii_of_string "MIIC")
           eq_refl eq_refl H).
Defined.

End MoreSamples.

Section Logging.

Local Open Scope string_scope.
Local Open Scope list_scope.

Variable V : Validators.
Variable w : World.

Ltac settle :=
  eexists; (split; [reflexivity|]); cbv;
  split; intros H; try reflexivity; try discriminate H;
  try (destruct H as [H|H]; discriminate H); auto.

(** X13. An answer of 500 is always logged at error level first, and
    the error level is used for nothing else, with one exception: the 404
    of a read-certificate request is logged as an error too (the 404 of
    the existence check and the 400 of a create request are not). *)
Theorem errors_are_logged (req : Request) (q : Store) :
  let logged (t : list Call) :=
    existsb (fun c => match c with CLog ErrorLevel _ => true | _ => false end) t in
  (exists r, result (exec w (get_all req) q) = Ok r
     /\ (logged (trace (exec w (get_all req) q)) = true
         <-> statusCode r = INTERNAL_SERVER_ERROR))
  /\ (exists r, result (exec w (post V req) q) = Ok r
        /\ (logged (trace (exec w (post V req) q)) = true
            <-> statusCode r = INTERNAL_SERVER_ERROR))
  /\ (exists r, result (exec w (options req) q) = Ok r
        /\ (logged (trace (exec w (options req) q)) = true
            <-> statusCode r = INTERNAL_SERVER_ERROR))
  /\ (exists r, result (exec w (get_one req) q) = Ok r
        /\ (logged (trace (exec w (get_one req) q)) = true
            <-> (statusCode r = INTERNAL_SERVER_ERROR \/ statusCode r = NOT_FOUND))).
Proof.
  intros logged. subst logged.
  rewrite get_all_run, (post_run V), options_run, get_one_run. cbv zeta.
  split; [|split; [|split]].
  - destruct (ledger w _ "GetAllCertificates" []) as [[|b bs]|e];
      [| destruct (parse w _) |]; settle.
  - destruct (validationResult V req);
      [destruct (addJob w _ _ _ q) as [[id|e] q']|]; settle.
  - destruct (ledger w _ "CertificateExists" _) as [data|e];
      [destruct (String.eqb (toString data) "true")|]; settle.
  - destruct (ledger w _ "ValidateCertificate" _) as [data|[m|n m]];
      [destruct (parse w _)| |]; settle.
Qed.

(** X14. Each handler reads only part of the request.  A create request
    is decided by the caller's MSP id and the body alone: neither the
    contracts registered in [app.locals] nor the path are looked at, so it
    is accepted also for an MSP id that has no contract.  The read
    handlers never look at the body, and get-all not at the path either. *)
Theorem request_parts_read (req req' : Request) (q : Store) :
  (user req = user req' -> body req = body req' ->
   exec w (post V req) q = exec w (post V req') q)
  /\ (user req = user req' -> locals req = locals req' ->
      exec w (get_all req) q = exec w (get_all req') q)
  /\ (user req = user req' -> locals req = locals req' ->
      certificateHash req = certificateHash req' ->
      exec w (options req) q = exec w (options req') q
      /\ exec w (get_one req) q = exec w (get_one req') q).
Proof.
  split; [|split].
  - intros Hu Hb. rewrite !(post_run V). unfold validationResult. rewrite Hu, Hb.
    reflexivity.
  - intros Hu Hl. rewrite !get_all_run. rewrite Hu, Hl. reflexivity.
  - intros Hu Hl Hh. rewrite !options_run, !get_one_run. rewrite Hu, Hl, Hh.
    split; reflexivity.
Qed.

End Logging.
